(** * vue-modal-core: the modal registry and its close negotiation

    A shallow embedding of [src/core.ts] ([createModalContext]) and the
    properties of its registry, open queue and close-guard protocol.

    The JavaScript heap is modelled explicitly.  A modal record is an
    object: [closeModal] keeps a reference to the record it started on
    across every [await], while [open] may meanwhile replace the entry of
    the same identity in [modalsMap] by a new object.  Records therefore
    live in a store ([heap], addressed by position, allocation appends)
    and [modalsMap] maps an identity to an address.

    An [async] function runs synchronously up to its first [await];
    [await Promise.resolve(x)] always suspends, also when [x] is not a
    promise.  A suspended [closeModal] is a [task] of the state; [resume]
    runs it from the [await] it is parked on to the next one, or to its
    end.  The callers of [open], [close], [addClosePromise] ... and the
    scheduler that resumes tasks are the environment.

    A close hook is modelled by what calling it does (it returns a value,
    returns a promise that settles, or throws); hooks that call back into
    the modal context are outside the model. *)

From stdpp Require Import gmap strings list fin_maps.
From Stdlib Require Import ZArith.

Open Scope Z_scope.
Open Scope nat_scope.

(** ** Data model *)

(** A [symbol] of the source ([Symbol('ModalId')], [Symbol('fnKey')]):
    an opaque token compared by identity. *)
Abbreviation symbol := nat.

(** Values of the props of a modal ([Record<string, unknown>]): what a
    caller puts in a prop bag, and the object [{ zIndex }] that [open]
    builds for the [style] prop. *)
Inductive value :=
  | VStr (s : string)
  | VNum (z : Z)
  | VBool (b : bool)
  | VStyle (zIndex : Z).

(** The literals [true] and [false] of the source, as values of a prop. *)
Coercion VBool : bool >-> value.

(** What a close hook hands back: [void | boolean]. *)
Inductive jsval :=
  | VTrue
  | VFalse
  | VUndefined.

(** How a promise settles. *)
Inductive settled :=
  | Fulfilled (v : jsval)
  | Rejected.

(** The outcome of the call [fn()] of a hook of type
    [() => Promise<void | boolean> | void | boolean]: it returns a plain
    value, returns a promise, or throws. *)
Inductive call_result :=
  | Value (v : jsval)
  | Promise (s : settled)
  | Throw.

(** A close hook.  [gname] names the function object so that its calls
    can be observed in the trace; [gcall] is what calling it does. *)
Record guard := Guard {
  gname : nat;
  gcall : call_result
}.

(** What [await Promise.resolve(fn())] is parked on. *)
Definition awaited (c : call_result) : option settled :=
  match c with
  | Value v => Some (Fulfilled v)
  | Promise s => Some s
  | Throw => None
  end.

(** [meta.closePromises : Map<symbol, fn[]>].  A JS [Map] iterates in
    insertion order and [set] on a present key keeps its position, so the
    map is an association list without duplicate keys. *)
Abbreviation hook_map := (list (nat * list guard)).

Fixpoint cp_get (m : hook_map) (c : symbol) : option (list guard) :=
  match m with
  | [] => None
  | (k, v) :: m' => if decide (k = c) then Some v else cp_get m' c
  end.

Fixpoint cp_set (m : hook_map) (c : symbol) (v : list guard) : hook_map :=
  match m with
  | [] => [(c, v)]
  | (k, w) :: m' =>
      if decide (k = c) then (k, v) :: m' else (k, w) :: cp_set m' c v
  end.

Fixpoint cp_delete (m : hook_map) (c : symbol) : hook_map :=
  match m with
  | [] => []
  | (k, w) :: m' =>
      if decide (k = c) then cp_delete m' c else (k, w) :: cp_delete m' c
  end.

(** [Array.from(map.values()).flat()] *)
Definition all_fns (m : hook_map) : list guard := concat (m.*2).

(** The props object of a record always has the keys [visible] and
    [style]: [open] creates it with both, and nothing deletes a key.
    They are fields of their own, [visible] for [props.visible] and
    [style] for [props.style]; [props] holds the other keys.  The type
    [ExtractComponentOptions] of the bag of a call omits these two keys,
    but types are erased and an object that carries them is accepted, so
    a bag may hold any key: [other_props] is its part that goes to
    [props], and its [visible] and [style] go to the two fields where
    the source lets them through.
    [isClosing?: boolean] is optional and absent at creation: [None]. *)
Record modal_record := ModalRecord {
  comp : nat;
  props : gmap string value;
  visible : value;
  style : value;
  isClosing : option bool;
  closePromises : list (nat * list guard)
}.

(** The keys of a bag other than [visible] and [style]. *)
Definition other_props (p : gmap string value) : gmap string value :=
  delete "visible" (delete "style" p).

(** Truthiness of [meta.isClosing]. *)
Definition closing (r : modal_record) : bool :=
  match isClosing r with
  | Some true => true
  | _ => false
  end.

Definition set_visible (b : bool) (r : modal_record) : modal_record :=
  ModalRecord (comp r) (props r) b (style r) (isClosing r) (closePromises r).

Definition set_isClosing (b : bool) (r : modal_record) : modal_record :=
  ModalRecord (comp r) (props r) (visible r) (style r) (Some b)
    (closePromises r).

Definition set_closePromises (m : hook_map) (r : modal_record)
  : modal_record :=
  ModalRecord (comp r) (props r) (visible r) (style r) (isClosing r) m.

(** [Object.assign(modal.props, props)]: every key of [p] overwrites,
    [visible] and [style] as any other. *)
Definition assign_props (p : gmap string value) (r : modal_record)
  : modal_record :=
  ModalRecord (comp r) (other_props p ∪ props r)
    (default (visible r) (p !! "visible"))
    (default (style r) (p !! "style"))
    (isClosing r) (closePromises r).

(** A [closeModal] call parked on an [await]: the identity and the record
    object it holds ([id], [modal]), the promise it waits for, and the
    part of [allFns] the [for] loop has not reached yet. *)
Record task := Task {
  t_id : symbol;
  t_modal : nat;
  t_await : settled;
  t_rest : list guard
}.

(** Observable events: the call of a hook, and the [console.error] of the
    [catch] block.  ([log] prints only under [debug] and is left out.) *)
Inductive event :=
  | Invoked (g : nat)
  | ConsoleError.

Record state := State {
  heap : list modal_record;
  modalsMap : gmap nat nat;
  modalQueue : list nat;
  tasks : gmap nat task;
  next_tid : nat;
  trace : list event
}.

(** What a call of the [async] function [closeModal] has produced when
    control returns to the caller: a promise already fulfilled with [b],
    or a promise still pending, the call being parked as task [tid]. *)
Inductive completion :=
  | Done (b : bool)
  | Pending (tid : nat).

Record ModalOptions := Options {
  baseZIndex : Z;
  allowMultiple : bool;
  debug : bool
}.

Definition DEFAULT_OPTIONS : ModalOptions := Options 1000 true false.

(** The state right after [createModalContext]. *)
Definition init : state := State [] ∅ [] ∅ 0 [].

(** ** State accessors *)

Definition with_heap (h : list modal_record) (st : state) : state :=
  State h (modalsMap st) (modalQueue st) (tasks st) (next_tid st) (trace st).

(** Field updates through a reference to a record object. *)
Definition update (a : nat) (f : modal_record → modal_record) (st : state)
  : state :=
  with_heap (alter f a (heap st)) st.

Definition emit (e : event) (st : state) : state :=
  State (heap st) (modalsMap st) (modalQueue st) (tasks st) (next_tid st)
    (trace st ++ [e]).

Definition closing_at (st : state) (a : nat) : bool :=
  match heap st !! a with
  | Some r => closing r
  | None => false
  end.

(** [modalQueue.indexOf(id)] then [splice(queueIndex, 1)]: the first
    occurrence goes, later ones stay. *)
Fixpoint remove_first (id : symbol) (q : list nat) : list nat :=
  match q with
  | [] => []
  | x :: q' => if decide (x = id) then q' else x :: remove_first id q'
  end.

(** ** Guard registration (core.ts 124-143) *)

Definition addClosePromise (st : state) (modalId componentId : symbol)
    (fn : guard) : state :=
  match modalsMap st !! modalId with
  | Some a =>
      update a (λ r,
        let componentPromises :=
          default [] (cp_get (closePromises r) componentId) in
        set_closePromises
          (cp_set (closePromises r) componentId (fn :: componentPromises)) r)
        st
  | None => st
  end.

Definition removeComponentPromises (st : state) (modalId componentId : symbol)
  : state :=
  match modalsMap st !! modalId with
  | Some a =>
      update a (λ r,
        set_closePromises (cp_delete (closePromises r) componentId) r) st
  | None => st
  end.

(** ** Close negotiation (core.ts 145-183) *)

(** The [catch] block: report, clear [isClosing], resolve to [false]. *)
Definition on_error (st : state) (a : nat) : state * completion :=
  (update a (set_isClosing false) (emit ConsoleError st), Done false).

(** [result === false]: clear [isClosing], show again, resolve [false]. *)
Definition on_deny (st : state) (a : nat) : state * completion :=
  (update a (λ r, set_visible true (set_isClosing false r)) st, Done false).

(** After the loop (lines 173-182). *)
Definition finish (st : state) (id : symbol) (a : nat) : state * completion :=
  if closing_at st a then
    (State (heap st) (delete id (modalsMap st))
       (remove_first id (modalQueue st)) (tasks st) (next_tid st) (trace st),
     Done true)
  else (st, Done false).

(** Park the call on an [await].  [next_tid] stays above every task
    identifier handed out so far. *)
Definition suspend (st : state) (tid : nat) (t : task) : state * completion :=
  (State (heap st) (modalsMap st) (modalQueue st) (<[tid := t]> (tasks st))
     (next_tid st `max` S tid) (trace st),
   Pending tid).

(** One turn of [for (const fn of allFns)] from the head of the loop to
    the next [await], or the code after the loop when it is exhausted. *)
Definition next_guard (st : state) (tid : nat) (id : symbol) (a : nat)
    (fns : list guard) : state * completion :=
  match fns with
  | [] => finish st id a
  | fn :: rest =>
      let st1 := emit (Invoked (gname fn)) st in
      match awaited (gcall fn) with
      | None => on_error st1 a
      | Some p => suspend st1 tid (Task id a p rest)
      end
  end.

(** The branch [heap st !! a = None] stands for a dangling reference; it
    is there to keep the function total and is never taken from a
    well-formed state ([wf] below). *)
Definition closeModal (st : state) (id : symbol) : state * completion :=
  match modalsMap st !! id with
  | None => (st, Done false)
  | Some a =>
      match heap st !! a with
      | None => (st, Done false)
      | Some modal =>
          if closing modal then (st, Done false)
          else
            let st1 :=
              update a (λ r, set_isClosing true (set_visible false r)) st in
            let allFns := all_fns (closePromises modal) in
            next_guard st1 (next_tid st) id a allFns
      end
  end.

(** The continuation of a parked [closeModal] once the promise it awaits
    has settled.  [None]: there is no such task. *)
Definition resume (st : state) (tid : nat) : option (state * completion) :=
  match tasks st !! tid with
  | None => None
  | Some t =>
      let st0 :=
        State (heap st) (modalsMap st) (modalQueue st) (delete tid (tasks st))
          (next_tid st) (trace st) in
      Some
        match t_await t with
        | Rejected => on_error st0 (t_modal t)
        | Fulfilled VFalse => on_deny st0 (t_modal t)
        | Fulfilled _ => next_guard st0 tid (t_id t) (t_modal t) (t_rest t)
        end
  end.

(** ** The modal factory (core.ts 185-245) *)

Section makeModal.
Context (options : ModalOptions) (component : nat) (id : symbol).

Definition isVisible (st : state) : value :=
  match modalsMap st !! id with
  | Some a =>
      match heap st !! a with
      | Some modal => visible modal
      | None => false
      end
  | None => false
  end.

(** Lines 193-200: the promise of [closeModal(lastModalId)] is dropped,
    the negotiation goes on by itself. *)
Definition evict (st : state) : state :=
  if negb (allowMultiple options) && bool_decide (0 < length (modalQueue st))
  then
    match last (modalQueue st) with
    | Some lastModalId =>
        match modalsMap st !! lastModalId with
        | Some _ => (closeModal st lastModalId).1
        | None => st
        end
    | None => st
    end
  else st.

(** Lines 212-233.  In [{ ...props, visible: true, style: { zIndex } }]
    the two keys written last win over those of the bag. *)
Definition create (st : state) (p : gmap string value) : state :=
  let z := (baseZIndex options + Z.of_nat (length (modalQueue st)))%Z in
  State
    (heap st ++ [ModalRecord component (other_props p) true (VStyle z) None []])
    (<[id := length (heap st)]> (modalsMap st))
    (modalQueue st ++ [id])
    (tasks st) (next_tid st) (trace st).

Definition open (st : state) (p : gmap string value) : state :=
  let st1 := evict st in
  match modalsMap st1 !! id with
  | Some a =>
      let st2 := update a (assign_props p) st1 in
      if negb (closing_at st2 a) then st2
      else
        let st3 := update a (set_isClosing false) st2 in
        create
          (State (heap st3) (delete id (modalsMap st3)) (modalQueue st3)
             (tasks st3) (next_tid st3) (trace st3))
          p
  | None => create st1 p
  end.

(** [close] is an [async] wrapper that returns the promise of
    [closeModal]; it settles as that promise does. *)
Definition close (st : state) : state * completion :=
  match modalsMap st !! id with
  | Some _ => closeModal st id
  | None => (st, Done false)
  end.
End makeModal.

(** ** Driving a negotiation to its end *)

(** Resume task [tid] again and again, nothing else happening in between,
    until the promise of its [closeModal] call is fulfilled. *)
Fixpoint drive (fuel : nat) (st : state) (tid : nat) : state * option bool :=
  match fuel with
  | 0 => (st, None)
  | S fuel' =>
      match resume st tid with
      | None => (st, None)
      | Some (st', Done b) => (st', Some b)
      | Some (st', Pending _) => drive fuel' st' tid
      end
  end.

(** Each resumption consumes one hook of the rest of the loop. *)
Definition turns_left (st : state) (tid : nat) : nat :=
  match tasks st !! tid with
  | Some t => S (length (t_rest t))
  | None => 0
  end.

Definition settle (st : state) (tid : nat) : state * option bool :=
  drive (turns_left st tid) st tid.

(** [await closeModal(id)] with no other operation interleaved. *)
Definition closeModal_await (st : state) (id : symbol) : state * option bool :=
  match closeModal st id with
  | (st', Done b) => (st', Some b)
  | (st', Pending tid) => settle st' tid
  end.

(** ** Operations of the environment *)

Inductive op :=
  | OpOpen (component : nat) (id : symbol) (p : gmap string value)
  | OpClose (id : symbol)
  | OpCloseModal (id : symbol)
  | OpAddClosePromise (modalId componentId : symbol) (fn : guard)
  | OpRemoveComponentPromises (modalId componentId : symbol)
  | OpResume (tid : nat).

Definition step (options : ModalOptions) (st : state) (o : op) : state :=
  match o with
  | OpOpen c id p => open options c id st p
  | OpClose id => (close id st).1
  | OpCloseModal id => (closeModal st id).1
  | OpAddClosePromise m c fn => addClosePromise st m c fn
  | OpRemoveComponentPromises m c => removeComponentPromises st m c
  | OpResume tid =>
      match resume st tid with
      | Some (st', _) => st'
      | None => st
      end
  end.

Definition run (options : ModalOptions) (ops : list op) : state :=
  foldl (step options) init ops.

Definition reachable (options : ModalOptions) (st : state) : Prop :=
  ∃ ops, st = run options ops.

(** ** Vocabulary of the properties *)

(** How a negotiation ends. *)
Inductive verdict :=
  | Allowed
  | Denied
  | Errored.

(** The protocol in the words of the specification (4.2, steps 3-5): the
    guards are taken one after the other in evaluation order; a guard that
    raises or whose future rejects aborts the negotiation, the first
    explicit [false] denies it, any other value lets the next guard run.
    The result is the guards that were invoked, and the verdict. *)
Fixpoint evaluate (fns : list guard) : list guard * verdict :=
  match fns with
  | [] => ([], Allowed)
  | fn :: rest =>
      match gcall fn with
      | Throw | Promise Rejected => ([fn], Errored)
      | Value VFalse | Promise (Fulfilled VFalse) => ([fn], Denied)
      | _ => let '(called, v) := evaluate rest in (fn :: called, v)
      end
  end.

Definition invocations (fns : list guard) : list event :=
  (λ fn, Invoked (gname fn)) <$> fns.

(** A guard lets the close go on: it returns, or its promise is fulfilled
    with, anything but [false]. *)
Definition allows (fn : guard) : Prop :=
  ∃ v, awaited (gcall fn) = Some (Fulfilled v) ∧ v ≠ VFalse.

Definition denies (fn : guard) : Prop :=
  awaited (gcall fn) = Some (Fulfilled VFalse).

(** A guard throws, or the promise it returns rejects. *)
Definition fails (fn : guard) : Prop :=
  awaited (gcall fn) = None ∨ awaited (gcall fn) = Some Rejected.

(** The [for] loop entered at its head with [fns] left, then driven. *)
Definition loop_from (fuel : nat) (st : state) (tid : nat) (id : symbol)
    (a : nat) (fns : list guard) : state * option bool :=
  match next_guard st tid id a fns with
  | (st', Done b) => (st', Some b)
  | (st', Pending _) => drive fuel st' tid
  end.

(** [meta.isClosing] of the record registered for [id], if any. *)
Definition closing_of (st : state) (id : symbol) : bool :=
  match modalsMap st !! id with
  | Some a => closing_at st a
  | None => false
  end.

(** The stacking value of the record registered for [id]:
    [props.style.zIndex], when [style] is the object that [open] built. *)
Definition stacking (st : state) (id : symbol) : option Z :=
  a ← modalsMap st !! id; r ← heap st !! a;
  match style r with
  | VStyle z => Some z
  | _ => None
  end.

Definition occurrences (id : symbol) (q : list nat) : nat :=
  length (filter (λ x, x = id) q).

(** Every identity of the registry refers to an allocated record object,
    no two identities share one, and every registered identity is in the
    open queue. *)
Definition wf (st : state) : Prop :=
  (∀ id a, modalsMap st !! id = Some a → a < length (heap st)) ∧
  (∀ i j a, modalsMap st !! i = Some a → modalsMap st !! j = Some a → i = j) ∧
  (∀ id a, modalsMap st !! id = Some a → id ∈ modalQueue st).

(** What a negotiation on identity [id] holding record [a] may change:
    the record [a] itself, and at its successful end the entry of [id] in
    the registry together with its first occurrence in the queue. *)
Definition negotiation_frame (id : symbol) (a : nat) (st st' : state) : Prop :=
  length (heap st') = length (heap st) ∧
  (∀ b, b ≠ a → heap st' !! b = heap st !! b) ∧
  ((modalsMap st' = modalsMap st ∧ modalQueue st' = modalQueue st) ∨
   (modalsMap st' = delete id (modalsMap st) ∧
    modalQueue st' = remove_first id (modalQueue st))).

(** A record object that has left the registry for good: it is
    allocated, not closing, and no identity refers to it. *)
Definition retired (a : nat) (st : state) : Prop :=
  a < length (heap st) ∧ closing_at st a = false ∧
  ∀ id, modalsMap st !! id ≠ Some a.

(** The record is shown or is being closed. *)
Definition live (r : modal_record) : Prop :=
  visible r = true ∨ closing r = true.

(** A guard that neither throws nor returns a promise that rejects. *)
Definition benign (fn : guard) : Prop :=
  gcall fn ≠ Throw ∧ gcall fn ≠ Promise Rejected.

(** An operation that neither brings a guard error nor hides a modal by
    itself: the guard it registers is benign, the bag of an [open]
    carries no [visible] other than [true]. *)
Definition op_benign (o : op) : Prop :=
  match o with
  | OpAddClosePromise _ _ fn => benign fn
  | OpOpen _ _ p => ∀ v, p !! "visible" = Some v → v = VBool true
  | _ => True
  end.

(** Every record of the registry is live, and no guard known to the
    state, registered or still to be called by a parked negotiation,
    raises an error. *)
Definition calm (st : state) : Prop :=
  (∀ id a, modalsMap st !! id = Some a →
           ∃ r, heap st !! a = Some r ∧ live r) ∧
  (∀ a r, heap st !! a = Some r →
          Forall benign (all_fns (closePromises r))) ∧
  (∀ tid t, tasks st !! tid = Some t →
            t_await t ≠ Rejected ∧ Forall benign (t_rest t)).

(** The record [closeModal] leaves behind when it does not delete it. *)
Definition after_close (v : verdict) (r : modal_record) : modal_record :=
  match v with
  | Allowed => set_isClosing true (set_visible false r)
  | Denied => ModalRecord (comp r) (props r) true (style r) (Some false)
                (closePromises r)
  | Errored => ModalRecord (comp r) (props r) false (style r) (Some false)
                 (closePromises r)
  end.

(** The evaluation order in the words of the specification (4.2): the
    guards are grouped by owner, the owners come in the order of their
    first registration, and the guards of one owner last-registered-first.
    [regs] lists the registrations (owner, guard) in the order in which
    they were made. *)
Fixpoint owners_in_order (regs : list (nat * guard)) : list nat :=
  match regs with
  | [] => []
  | (c, _) :: regs' => c :: filter (λ c', c' ≠ c) (owners_in_order regs')
  end.

Definition guards_of (c : symbol) (regs : list (nat * guard)) : list guard :=
  (filter (λ cg, cg.1 = c) regs).*2.

Definition evaluation_order (regs : list (nat * guard)) : list guard :=
  c ← owners_in_order regs; reverse (guards_of c regs).

(** What [addClosePromise] does to the guard map of the record. *)
Definition register (m : list (nat * list guard)) (cg : nat * guard)
  : list (nat * list guard) :=
  cp_set m cg.1 (cg.2 :: default [] (cp_get m cg.1)).

(** The hooks a trace shows to have been called, in order. *)
Definition calls (tr : list event) : list nat :=
  omap (λ e, match e with Invoked g => Some g | ConsoleError => None end) tr.

(** ** The rest of core.ts *)

(** A field of the options object a caller passes to
    [createModalContext]: every field is optional ([baseZIndex?: number]
    ...), so it is left out, present and holding [undefined], or set. *)
Inductive field (A : Type) :=
  | Absent
  | Undefined
  | Given (a : A).
Arguments Absent {A}.
Arguments Undefined {A}.
Arguments Given {A} a.

Record ModalOptionsInput := OptionsInput {
  in_baseZIndex : field Z;
  in_allowMultiple : field bool;
  in_debug : field bool
}.

(** One field of [{ ...DEFAULT_OPTIONS, ...options }]: a field that the
    caller's object has wins over the default, also when it holds
    [undefined] ([None]). *)
Definition spread {A} (d : A) (f : field A) : option A :=
  match f with
  | Absent => Some d
  | Undefined => None
  | Given a => Some a
  end.

Record MergedOptions := Merged {
  m_baseZIndex : option Z;
  m_allowMultiple : option bool;
  m_debug : option bool
}.

(** [{ ...DEFAULT_OPTIONS, ...options }] (core.ts 109) *)
Definition mergedOptions (options : ModalOptionsInput) : MergedOptions :=
  Merged
    (spread (baseZIndex DEFAULT_OPTIONS) (in_baseZIndex options))
    (spread (allowMultiple DEFAULT_OPTIONS) (in_allowMultiple options))
    (spread (debug DEFAULT_OPTIONS) (in_debug options)).

(** The merged options as the context reads them.  [allowMultiple] and
    [debug] are only tested ([!mergedOptions.allowMultiple],
    [if (mergedOptions.debug)]), and [undefined] is falsy.  [baseZIndex]
    is added to the length of the queue; when it is [undefined] the sum
    is [NaN], which the stacking values of [ModalOptions] do not have:
    [None]. *)
Definition effective (m : MergedOptions) : option ModalOptions :=
  z ← m_baseZIndex m;
  Some (Options z (default false (m_allowMultiple m))
          (default false (m_debug m))).

(** What [onBeforeClose] (core.ts 75-101) finds around it:
    [getCurrentInstance()] is an instance or [null], [inject(ModalKey)]
    the modal context or [undefined], [inject(ModalIdKey)] the identity
    of the enclosing modal or [undefined]. *)
Record ambient := Ambient {
  currentInstance : bool;
  injectedContext : bool;
  injectedModalId : option nat
}.

(** The three [console.warn] of [onBeforeClose]. *)
Inductive warning :=
  | NotInComponent
  | ContextNotFound
  | ModalIdNotFound.

(** What a call of [onBeforeClose] leaves behind: a warning, or the
    [onUnmounted] hook that holds [modalId] and the minted [fnId]. *)
Inductive registration :=
  | Warned (w : warning)
  | Hooked (modalId fnId : nat).

(** [fnId] is the symbol [Symbol('fnKey')] mints in this call. *)
Definition onBeforeClose (env : ambient) (fnId : symbol) (fn : guard)
    (st : state) : state * registration :=
  if negb (currentInstance env) then (st, Warned NotInComponent)
  else if negb (injectedContext env) then (st, Warned ContextNotFound)
  else
    match injectedModalId env with
    | None => (st, Warned ModalIdNotFound)
    | Some modalId => (addClosePromise st modalId fnId fn, Hooked modalId fnId)
    end.

(** The component is unmounted: the hook set by [onBeforeClose] runs. *)
Definition unmounted (reg : registration) (st : state) : state :=
  match reg with
  | Hooked modalId fnId => removeComponentPromises st modalId fnId
  | Warned _ => st
  end.


(** Two states that parked negotiations cannot tell apart: they read the
    tasks, [isClosing] of their record, the registry and the queue. *)
Definition same_negotiations (st1 st2 : state) : Prop :=
  tasks st1 = tasks st2 ∧ next_tid st1 = next_tid st2 ∧
  trace st1 = trace st2 ∧ modalsMap st1 = modalsMap st2 ∧
  modalQueue st1 = modalQueue st2 ∧
  ∀ a, closing_at st1 a = closing_at st2 a.

(** What a negotiation never writes. *)
Definition same_content (r r' : modal_record) : Prop :=
  comp r' = comp r ∧ props r' = props r ∧ style r' = style r ∧
  closePromises r' = closePromises r.

(** The parked negotiations exclude each other: every task has an
    identifier below [next_tid] and an allocated record, no two tasks
    hold the same record, the record of a task is either registered under
    the identity of the task and closing, or neither closing nor
    registered, and a registered record that is closing has a task. *)
Definition exclusive (st : state) : Prop :=
  (∀ tid t, tasks st !! tid = Some t →
            tid < next_tid st ∧ t_modal t < length (heap st)) ∧
  (∀ tid1 tid2 t1 t2,
     tasks st !! tid1 = Some t1 → tasks st !! tid2 = Some t2 →
     t_modal t1 = t_modal t2 → tid1 = tid2) ∧
  (∀ tid t, tasks st !! tid = Some t →
            (modalsMap st !! t_id t = Some (t_modal t) ∧
             closing_at st (t_modal t) = true) ∨
            (closing_at st (t_modal t) = false ∧
             ∀ id, modalsMap st !! id ≠ Some (t_modal t))) ∧
  (∀ id a, modalsMap st !! id = Some a → closing_at st a = true →
           ∃ tid t, tasks st !! tid = Some t ∧ t_modal t = a).

(** The state in the middle of a negotiation [tid] on identity [id] and
    record [a] that is running, not parked: the other tasks are as in
    [exclusive] and none of them holds [a]. *)
Definition running (st : state) (tid : nat) (id : symbol) (a : nat) : Prop :=
  tasks st !! tid = None ∧
  (∀ tid' t, tasks st !! tid' = Some t →
             tid' < next_tid st ∧ t_modal t < length (heap st) ∧
             t_modal t ≠ a) ∧
  (∀ tid1 tid2 t1 t2,
     tasks st !! tid1 = Some t1 → tasks st !! tid2 = Some t2 →
     t_modal t1 = t_modal t2 → tid1 = tid2) ∧
  (∀ tid' t, tasks st !! tid' = Some t →
             (modalsMap st !! t_id t = Some (t_modal t) ∧
              closing_at st (t_modal t) = true) ∨
             (closing_at st (t_modal t) = false ∧
              ∀ i, modalsMap st !! i ≠ Some (t_modal t))) ∧
  (∀ i b, modalsMap st !! i = Some b → b ≠ a → closing_at st b = true →
          ∃ tid' t, tasks st !! tid' = Some t ∧ t_modal t = b) ∧
  a < length (heap st) ∧
  ((modalsMap st !! id = Some a ∧ closing_at st a = true) ∨
   (closing_at st a = false ∧ ∀ i, modalsMap st !! i ≠ Some a)) ∧
  (∀ i j b, modalsMap st !! i = Some b → modalsMap st !! j = Some b → i = j).

(** ** Proof steps *)

(** A call parked by [suspend] and resumed at once. *)
Ltac parked :=
  unfold suspend; simpl drive; unfold resume; simpl tasks;
  rewrite lookup_insert_eq; simpl t_await; simpl.

(** Frames of states that only altered the record [a]. *)
Ltac frame_alter :=
  unfold negotiation_frame, update; simpl; rewrite ?length_alter;
  split; [done|]; split; [|auto];
  intros; by rewrite ?list_lookup_alter_ne.

(** ** Basic facts *)

Lemma lookup_update st a f b :
  heap (update a f st) !! b =
    if decide (a = b) then f <$> heap st !! a else heap st !! b.
Proof.
  unfold update; simpl. case_decide as Hab.
  - subst. apply list_lookup_alter_eq.
  - by apply list_lookup_alter_ne.
Qed.

Lemma closing_at_update st a f r :
  heap st !! a = Some r → closing_at (update a f st) a = closing (f r).
Proof.
  intros H. unfold closing_at. rewrite lookup_update, decide_True by done.
  by rewrite H.
Qed.

Lemma other_props_lookup p k :
  k ≠ "visible" → k ≠ "style" → other_props p !! k = p !! k.
Proof.
  intros Hv Hs. unfold other_props. by rewrite !lookup_delete_ne.
Qed.

(** The loop, driven with enough fuel, ends and does what [evaluate]
    says: it calls exactly the guards [evaluate] lists, in that order,
    and leaves the record and the registry according to the verdict. *)
Lemma loop_from_spec fns :
  ∀ st tid id a fuel, length fns ≤ fuel →
  ∃ st',
    loop_from fuel st tid id a fns =
      (st', Some (match (evaluate fns).2 with
                  | Allowed => closing_at st a
                  | _ => false
                  end)) ∧
    trace st' = trace st ++ invocations (evaluate fns).1 ++
                  (match (evaluate fns).2 with
                   | Errored => [ConsoleError]
                   | _ => []
                   end) ∧
    match (evaluate fns).2 with
    | Allowed =>
        heap st' = heap st ∧
        (if closing_at st a
         then modalsMap st' = delete id (modalsMap st) ∧
              modalQueue st' = remove_first id (modalQueue st)
         else modalsMap st' = modalsMap st ∧ modalQueue st' = modalQueue st)
    | Denied =>
        heap st' =
          alter (λ r, set_visible true (set_isClosing false r)) a (heap st) ∧
        modalsMap st' = modalsMap st ∧ modalQueue st' = modalQueue st
    | Errored =>
        heap st' = alter (set_isClosing false) a (heap st) ∧
        modalsMap st' = modalsMap st ∧ modalQueue st' = modalQueue st
    end.
Proof.
  induction fns as [|fn rest IH]; intros st tid id a fuel Hfuel.
  - unfold loop_from, next_guard, finish. simpl.
    destruct (closing_at st a) eqn:Hc; eexists; (split; [reflexivity|]);
      simpl; rewrite ?app_nil_r; auto.
  - unfold loop_from, next_guard.
    destruct fuel as [|fuel]; [simpl in Hfuel; lia|].
    simpl in Hfuel. assert (length rest ≤ fuel) as Hrest by lia.
    destruct (gcall fn) as [v|[v|]|] eqn:Hcall; simpl awaited; cbv iota beta.
    4: { (* the call throws *)
      simpl. rewrite Hcall. eexists. split; [reflexivity|]. simpl.
      rewrite <- ?app_assoc. auto. }
    3: { (* the promise rejects *)
      parked. rewrite Hcall. eexists. split; [reflexivity|]. simpl.
      rewrite <- ?app_assoc. auto. }
    all: (* the call returns [v], or a promise fulfilled with [v] *)
      parked; destruct v; simpl; rewrite Hcall; simpl.
    2,5: (* an explicit [false] *)
      eexists; (split; [reflexivity|]); simpl; rewrite <- ?app_assoc; auto.
    all: (* the next turn of the loop *)
      match goal with
      | |- context [next_guard ?s ?t ?i ?b _] =>
          destruct (IH s t i b _ Hrest) as (st' & Hrun & Htr & Hst)
      end;
      unfold loop_from in Hrun; exists st';
      destruct (evaluate rest) as [called v'] eqn:Hev; simpl in *;
      (split; [exact Hrun|]); split;
      [rewrite Htr; simpl; by rewrite <- !app_assoc | exact Hst].
Qed.

Lemma alter_insert {A} (f : A → A) (l : list A) i x :
  l !! i = Some x → alter f i l = <[i := f x]> l.
Proof.
  revert i. induction l as [|y l IH]; intros [|i] H; simplify_eq/=; auto.
  f_equal. by apply IH.
Qed.

Lemma next_guard_pending st tid id a fns st' tid' :
  next_guard st tid id a fns = (st', Pending tid') →
  tid' = tid ∧ turns_left st' tid = length fns.
Proof.
  destruct fns as [|fn rest]; simpl.
  - unfold finish. by destruct (closing_at st a).
  - destruct (awaited (gcall fn)); [|done].
    unfold suspend. intros [= <- <-]. split; [done|].
    unfold turns_left. simpl. by rewrite lookup_insert_eq.
Qed.

(** An uninterrupted [closeModal] on an open record is the loop over the
    snapshot [allFns], entered with [visible = false], [isClosing = true]. *)
Lemma closeModal_await_loop st id a r :
  modalsMap st !! id = Some a → heap st !! a = Some r → closing r = false →
  closeModal_await st id =
    loop_from (length (all_fns (closePromises r)))
      (update a (λ r, set_isClosing true (set_visible false r)) st)
      (next_tid st) id a (all_fns (closePromises r)).
Proof.
  intros Hid Ha Hc. unfold closeModal_await, closeModal, loop_from.
  rewrite Hid, Ha, Hc.
  destruct (next_guard _ _ _ _ _) as [st' [b|tid']] eqn:Hng; [done|].
  apply next_guard_pending in Hng as [-> Hturns].
  unfold settle. by rewrite Hturns.
Qed.

(** The whole of an uninterrupted [closeModal] on an open record. *)
Lemma closeModal_await_spec st id a r :
  modalsMap st !! id = Some a → heap st !! a = Some r → closing r = false →
  let fns := all_fns (closePromises r) in
  ∃ st',
    closeModal_await st id =
      (st', Some (match (evaluate fns).2 with Allowed => true | _ => false end))
    ∧ trace st' = trace st ++ invocations (evaluate fns).1 ++
                    (match (evaluate fns).2 with
                     | Errored => [ConsoleError]
                     | _ => []
                     end)
    ∧ heap st' = <[a := after_close (evaluate fns).2 r]> (heap st)
    ∧ match (evaluate fns).2 with
      | Allowed => modalsMap st' = delete id (modalsMap st) ∧
                   modalQueue st' = remove_first id (modalQueue st)
      | _ => modalsMap st' = modalsMap st ∧ modalQueue st' = modalQueue st
      end.
Proof.
  intros Hid Ha Hc fns. rewrite (closeModal_await_loop st id a r) by done.
  fold fns.
  set (st1 := update a (λ r, set_isClosing true (set_visible false r)) st).
  destruct (loop_from_spec fns st1 (next_tid st) id a (length fns))
    as (st' & Hrun & Htr & Hst); [done|].
  assert (closing_at st1 a = true) as Hc1.
  { unfold st1. by rewrite (closing_at_update _ _ _ r). }
  assert (heap st1 = <[a := set_isClosing true (set_visible false r)]> (heap st))
    as Hh1 by exact (alter_insert _ _ _ _ Ha).
  assert (heap st1 !! a = Some (set_isClosing true (set_visible false r)))
    as Ha1.
  { unfold st1. rewrite lookup_update, decide_True by done. by rewrite Ha. }
  exists st'. rewrite Hrun, Htr, Hc1 in *. clear Hrun Htr.
  destruct (evaluate fns).2; simpl.
  - destruct Hst as (-> & ? & ?). rewrite Hh1. by destruct (evaluate fns).2.
  - destruct Hst as (-> & ? & ?). split; [done|]. split; [done|].
    rewrite (alter_insert _ _ _ _ Ha1), Hh1, list_insert_insert_eq.
    auto.
  - destruct Hst as (-> & ? & ?). split; [done|]. split; [done|].
    rewrite (alter_insert _ _ _ _ Ha1), Hh1, list_insert_insert_eq.
    auto.
Qed.

(** ** What [evaluate] says on the shapes the properties speak of *)

Lemma evaluate_allows fn rest :
  allows fn →
  evaluate (fn :: rest) = (fn :: (evaluate rest).1, (evaluate rest).2).
Proof.
  intros (v & Hv & Hne). simpl.
  destruct (gcall fn) as [w|[w|]|]; simplify_eq/=;
    destruct v; try done; by destruct (evaluate rest).
Qed.

Lemma evaluate_all_allow fns :
  Forall allows fns → evaluate fns = (fns, Allowed).
Proof.
  induction 1 as [|fn rest Hfn _ IH]; [done|].
  by rewrite evaluate_allows, IH.
Qed.

Lemma evaluate_denies pre fn post :
  Forall allows pre → denies fn →
  evaluate (pre ++ fn :: post) = (pre ++ [fn], Denied).
Proof.
  intros Hpre Hfn. induction Hpre as [|g pre Hg _ IH].
  - unfold denies in Hfn. simpl.
    by destruct (gcall fn) as [[]|[[]|]|]; simplify_eq/=.
  - simpl app. by rewrite evaluate_allows, IH.
Qed.

Lemma evaluate_fails pre fn post :
  Forall allows pre → fails fn →
  evaluate (pre ++ fn :: post) = (pre ++ [fn], Errored).
Proof.
  intros Hpre Hfn. induction Hpre as [|g pre Hg _ IH].
  - simpl. by destruct Hfn as [Hfn|Hfn];
      destruct (gcall fn) as [[]|[[]|]|]; simplify_eq/=.
  - simpl app. by rewrite evaluate_allows, IH.
Qed.

Lemma evaluate_singleton_called fn : (evaluate [fn]).1 = [fn].
Proof. simpl. by destruct (gcall fn) as [[]|[[]|]|]. Qed.

Lemma calls_app tr1 tr2 : calls (tr1 ++ tr2) = calls tr1 ++ calls tr2.
Proof. apply omap_app. Qed.

Lemma calls_invocations fns : calls (invocations fns) = gname <$> fns.
Proof. induction fns as [|fn fns IH]; [done|]. simpl. by f_equal. Qed.

Lemma calls_report (v : verdict) :
  calls (match v with Errored => [ConsoleError] | _ => [] end) = [].
Proof. by destruct v. Qed.

(** ** Guard registration *)

Lemma addClosePromise_spec st modalId componentId fn a r :
  modalsMap st !! modalId = Some a → heap st !! a = Some r →
  addClosePromise st modalId componentId fn =
    with_heap
      (<[a := set_closePromises
                (cp_set (closePromises r) componentId
                   (fn :: default [] (cp_get (closePromises r) componentId)))
                r]> (heap st)) st.
Proof.
  intros Hid Ha. unfold addClosePromise, update. rewrite Hid.
  f_equal. exact (alter_insert _ _ _ _ Ha).
Qed.

Lemma lookup_with_heap_insert st a r r' :
  heap st !! a = Some r → heap (with_heap (<[a := r']> (heap st)) st) !! a = Some r'.
Proof.
  intros Ha. simpl. apply list_lookup_insert_eq. by eapply lookup_lt_Some.
Qed.

Lemma filter_nil_iff {A} (P : A → Prop) `{∀ x, Decision (P x)} (l : list A) :
  filter P l = [] ↔ Forall (λ x, ¬ P x) l.
Proof.
  induction l as [|x l IH]; [by split; [constructor|]|].
  rewrite filter_cons, Forall_cons. case_decide; [|rewrite IH; tauto].
  split; [done|tauto].
Qed.

Lemma owners_in_order_elem c regs :
  c ∈ owners_in_order regs ↔ c ∈ regs.*1.
Proof.
  induction regs as [|[o fn] regs IH]; [done|]. simpl.
  rewrite !elem_of_cons, list_elem_of_filter, IH.
  destruct (decide (c = o)); tauto.
Qed.

Lemma owners_in_order_NoDup regs : NoDup (owners_in_order regs).
Proof.
  induction regs as [|[o fn] regs IH]; [constructor|]. simpl.
  constructor; [|by apply NoDup_filter].
  rewrite list_elem_of_filter. tauto.
Qed.

Lemma owners_in_order_snoc regs c fn :
  owners_in_order (regs ++ [(c, fn)]) =
    if decide (c ∈ owners_in_order regs) then owners_in_order regs
    else owners_in_order regs ++ [c].
Proof.
  induction regs as [|[o g] regs IH]; simpl.
  - done.
  - rewrite IH.
    destruct (decide (c ∈ o :: filter _ (owners_in_order regs))) as [Hin|Hin];
      destruct (decide (c ∈ owners_in_order regs)) as [Hin'|Hin'];
      rewrite elem_of_cons, list_elem_of_filter in Hin.
    + done.
    + assert (c = o) as -> by tauto.
      rewrite filter_app, filter_cons_False by tauto. by rewrite app_nil_r.
    + destruct (decide (c = o)); tauto.
    + rewrite filter_app, filter_cons_True; [done|]. intros ->. tauto.
Qed.

Lemma guards_of_snoc o regs c fn :
  guards_of o (regs ++ [(c, fn)]) =
    guards_of o regs ++ (if decide (c = o) then [fn] else []).
Proof.
  unfold guards_of. rewrite filter_app, fmap_app. f_equal.
  rewrite filter_cons. simpl. by case_decide.
Qed.

Lemma cp_get_groups (F : nat → list guard) os c :
  cp_get ((λ o, (o, F o)) <$> os) c =
    if decide (c ∈ os) then Some (F c) else None.
Proof.
  induction os as [|o os IH]; [done|]. rewrite fmap_cons. simpl. rewrite IH.
  destruct (decide (c ∈ o :: os)) as [Hin|Hin]; rewrite elem_of_cons in Hin;
    repeat case_decide; subst; try done; exfalso; intuition congruence.
Qed.

Lemma cp_set_groups (F G : nat → list guard) os c :
  NoDup os → (∀ o, o ≠ c → G o = F o) →
  cp_set ((λ o, (o, F o)) <$> os) c (G c) =
    if decide (c ∈ os) then (λ o, (o, G o)) <$> os
    else ((λ o, (o, F o)) <$> os) ++ [(c, G c)].
Proof.
  intros Hnd HG. induction os as [|o os IH]; [done|].
  apply NoDup_cons in Hnd as [Ho Hnd]. rewrite !fmap_cons. simpl.
  rewrite IH by done.
  destruct (decide (c ∈ o :: os)) as [Hin|Hin]; rewrite elem_of_cons in Hin;
    repeat case_decide; subst; try done;
    try (exfalso; intuition congruence).
  - by rewrite HG.
  - f_equal. apply list_fmap_ext. intros _ x Hx%list_elem_of_lookup_2.
    rewrite HG; [done|]. by intros ->.
Qed.

(** The guard map built by a sequence of registrations holds one group
    per owner, the owners in the order of their first registration, each
    group last-registered-first. *)
Lemma register_groups regs :
  foldl register [] regs =
    (λ o, (o, reverse (guards_of o regs))) <$> owners_in_order regs.
Proof.
  induction regs as [|[c fn] regs IH] using rev_ind; [done|].
  rewrite foldl_app. simpl. rewrite IH. unfold register. simpl.
  rewrite cp_get_groups, owners_in_order_snoc.
  pose proof (cp_set_groups (λ o, reverse (guards_of o regs))
                (λ o, reverse (guards_of o (regs ++ [(c, fn)])))
                (owners_in_order regs) c (owners_in_order_NoDup regs)) as Hset.
  simpl in Hset. rewrite guards_of_snoc, decide_True in Hset by done.
  rewrite reverse_snoc in Hset.
  assert (∀ o, o ≠ c →
            reverse (guards_of o (regs ++ [(c, fn)])) =
            reverse (guards_of o regs)) as Hother.
  { intros o Ho. rewrite guards_of_snoc, decide_False by done.
    by rewrite app_nil_r. }
  specialize (Hset Hother).
  destruct (decide (c ∈ owners_in_order regs)) as [Hin|Hin]; simpl.
  - exact Hset.
  - assert (guards_of c regs = []) as Hnone.
    { rewrite owners_in_order_elem in Hin. unfold guards_of.
      rewrite (proj2 (filter_nil_iff _ _)); [done|].
      apply Forall_forall. intros [o g] Hog Heq. simpl in Heq. subst o.
      apply Hin, list_elem_of_fmap. by exists (c, g). }
    rewrite Hnone, reverse_nil in Hset.
    rewrite Hset, fmap_app. simpl. f_equal.
    + apply list_fmap_ext. intros _ o Ho%list_elem_of_lookup_2.
      rewrite Hother; [done|]. by intros ->.
    + by rewrite guards_of_snoc, decide_True, reverse_snoc, Hnone, reverse_nil.
Qed.

(** The snapshot [allFns] after a sequence of registrations on a modal
    whose guard map was empty is the evaluation order of the
    specification. *)
Lemma registration_order_refines regs :
  all_fns (foldl register [] regs) = evaluation_order regs.
Proof.
  rewrite register_groups. unfold all_fns, evaluation_order.
  induction (owners_in_order regs) as [|o os IH]; [done|].
  rewrite !fmap_cons. simpl. by rewrite IH.
Qed.

Lemma addClosePromise_register st id a r regs :
  modalsMap st !! id = Some a → heap st !! a = Some r →
  let st' := foldl (λ s cg, addClosePromise s id cg.1 cg.2) st regs in
  modalsMap st' = modalsMap st ∧
  heap st' !! a =
    Some (set_closePromises (foldl register (closePromises r) regs) r).
Proof.
  intros Hid. revert st r Hid.
  induction regs as [|[c fn] regs IH]; intros st r Hid Ha; simpl.
  - split; [done|]. by destruct r.
  - rewrite (addClosePromise_spec st id c fn a r) by done.
    set (r1 := set_closePromises _ r).
    destruct (IH (with_heap (<[a := r1]> (heap st)) st) r1) as [Hm Hh];
      [exact Hid|by eapply lookup_with_heap_insert|].
    split; [exact Hm|]. by rewrite Hh.
Qed.

(** ** C1: the order in which the guards are evaluated *)

(** C1.  On a modal whose guard map is empty, let owner [A] register [a1]
    and then [a2], and owner [B] register [b1].  The snapshot [allFns]
    that [closeModal] walks through is then [a2; a1; b1], and when [a2]
    and [a1] let the close go on, [closeModal] calls exactly [a2], [a1],
    [b1], in this order.  More generally, after any sequence of
    registrations the snapshot is the evaluation order of the
    specification: the owners in the order of their first registration,
    the guards of each owner last-registered-first. *)
Theorem guard_evaluation_order st id a r A B a1 a2 b1 :
  modalsMap st !! id = Some a →
  heap st !! a = Some r →
  closing r = false →
  closePromises r = [] →
  A ≠ B →
  let st1 :=
    addClosePromise (addClosePromise (addClosePromise st id A a1) id A a2)
      id B b1 in
  (∃ r1, modalsMap st1 !! id = Some a ∧ heap st1 !! a = Some r1 ∧
         all_fns (closePromises r1) = [a2; a1; b1]) ∧
  (allows a2 → allows a1 →
   ∃ st2 b, closeModal_await st1 id = (st2, Some b) ∧
            calls (trace st2) =
              calls (trace st1) ++ [gname a2; gname a1; gname b1]) ∧
  (∀ regs : list (nat * guard),
     ∃ r', heap (foldl (λ s cg, addClosePromise s id cg.1 cg.2) st regs) !! a
             = Some r' ∧
           all_fns (closePromises r') = evaluation_order regs).
Proof.
  intros Hid Ha Hc Hempty HAB st1.
  assert (∀ regs : list (nat * guard),
     ∃ r', heap (foldl (λ s cg, addClosePromise s id cg.1 cg.2) st regs) !! a
             = Some r' ∧
           all_fns (closePromises r') = evaluation_order regs) as Hgen.
  { intros regs.
    destruct (addClosePromise_register st id a r regs Hid Ha) as [_ Hh].
    eexists. split; [exact Hh|]. simpl.
    by rewrite Hempty, registration_order_refines. }
  assert (∃ r1, modalsMap st1 !! id = Some a ∧ heap st1 !! a = Some r1 ∧
                closing r1 = false ∧
                closePromises r1 = [(A, [a2; a1]); (B, [b1])])
    as (r1 & Hid1 & Ha1 & Hc1 & Hcp1).
  { unfold st1.
    rewrite (addClosePromise_spec st id A a1 a r) by done.
    set (s1 := with_heap _ st).
    assert (∃ x, heap s1 !! a = Some x ∧ closing x = false ∧
                 closePromises x = [(A, [a1])]) as (x1 & Hx1 & Hcx1 & Hp1).
    { eexists. split; [by eapply lookup_with_heap_insert|].
      split; [done|]. simpl. by rewrite Hempty. }
    rewrite (addClosePromise_spec s1 id A a2 a x1) by done.
    set (s2 := with_heap _ s1).
    assert (∃ x, heap s2 !! a = Some x ∧ closing x = false ∧
                 closePromises x = [(A, [a2; a1])]) as (x2 & Hx2 & Hcx2 & Hp2).
    { eexists. split; [by eapply lookup_with_heap_insert|].
      split; [done|]. simpl. rewrite Hp1. simpl.
      by repeat case_decide. }
    rewrite (addClosePromise_spec s2 id B b1 a x2) by done.
    eexists. split; [done|]. split; [by eapply lookup_with_heap_insert|].
    split; [done|]. simpl. rewrite Hp2. simpl.
    by repeat case_decide. }
  split; [|split; [|exact Hgen]].
  - exists r1. by rewrite Hcp1.
  - intros Ha2 Ha1'.
    destruct (closeModal_await_spec st1 id a r1 Hid1 Ha1 Hc1)
      as (st2 & Hrun & Htr & _).
    rewrite Hcp1 in Hrun, Htr. change (all_fns _) with [a2; a1; b1] in Hrun, Htr.
    eexists st2, _. split; [exact Hrun|].
    rewrite Htr, !calls_app, calls_invocations, calls_report, app_nil_r.
    rewrite (evaluate_allows a2), (evaluate_allows a1) by done.
    cbn [fst]. by rewrite evaluate_singleton_called.
Qed.

(** ** C4, C5: a guard denies, a guard fails *)

Lemma isVisible_lookup st id a r :
  modalsMap st !! id = Some a → heap st !! a = Some r →
  isVisible id st = visible r.
Proof. intros Hid Ha. unfold isVisible. by rewrite Hid, Ha. Qed.

(** C4.  When a guard returns [false] (directly or through its promise)
    after the guards before it have let the close go on, [closeModal]
    calls the guards up to and including that one and none after it,
    resolves to [false], leaves the registry and the queue as they were,
    and the record ends with [isClosing = false] and [visible = true], so
    that [isVisible] answers [true]. *)
Theorem guard_denial_halts st id a r pre fn post :
  modalsMap st !! id = Some a →
  heap st !! a = Some r →
  closing r = false →
  all_fns (closePromises r) = pre ++ fn :: post →
  Forall allows pre →
  denies fn →
  ∃ st',
    closeModal_await st id = (st', Some false) ∧
    trace st' = trace st ++ invocations (pre ++ [fn]) ∧
    modalsMap st' = modalsMap st ∧
    modalQueue st' = modalQueue st ∧
    (∃ r', heap st' !! a = Some r' ∧
           isClosing r' = Some false ∧ visible r' = true) ∧
    isVisible id st' = true.
Proof.
  intros Hid Ha Hc Hfns Hpre Hfn.
  destruct (closeModal_await_spec st id a r Hid Ha Hc)
    as (st' & Hrun & Htr & Hheap & Hreg).
  rewrite Hfns, (evaluate_denies pre fn post Hpre Hfn) in *. simpl in *.
  destruct Hreg as [Hmap Hq]. rewrite app_nil_r in Htr.
  assert (heap st' !! a = Some (after_close Denied r)) as Ha'.
  { rewrite Hheap. apply list_lookup_insert_eq. by eapply lookup_lt_Some. }
  exists st'. repeat split; try done.
  - by eexists.
  - erewrite isVisible_lookup; [|by rewrite Hmap|exact Ha']. done.
Qed.

(** C5.  When a guard throws, or the promise it returns rejects, after
    the guards before it have let the close go on, the error is caught
    and reported on [console.error], no further guard is called, and
    [closeModal] does not raise: its promise is fulfilled with [false].
    The record stays in the registry with [isClosing = false] and with
    [visible] still [false]. *)
Theorem guard_error_caught st id a r pre fn post :
  modalsMap st !! id = Some a →
  heap st !! a = Some r →
  closing r = false →
  all_fns (closePromises r) = pre ++ fn :: post →
  Forall allows pre →
  fails fn →
  ∃ st',
    closeModal_await st id = (st', Some false) ∧
    trace st' = trace st ++ invocations (pre ++ [fn]) ++ [ConsoleError] ∧
    modalsMap st' = modalsMap st ∧
    modalQueue st' = modalQueue st ∧
    (∃ r', heap st' !! a = Some r' ∧
           isClosing r' = Some false ∧ visible r' = false) ∧
    isVisible id st' = false.
Proof.
  intros Hid Ha Hc Hfns Hpre Hfn.
  destruct (closeModal_await_spec st id a r Hid Ha Hc)
    as (st' & Hrun & Htr & Hheap & Hreg).
  rewrite Hfns, (evaluate_fails pre fn post Hpre Hfn) in *. simpl in *.
  destruct Hreg as [Hmap Hq].
  assert (heap st' !! a = Some (after_close Errored r)) as Ha'.
  { rewrite Hheap. apply list_lookup_insert_eq. by eapply lookup_lt_Some. }
  exists st'. repeat split; try done.
  - by eexists.
  - erewrite isVisible_lookup; [|by rewrite Hmap|exact Ha']. done.
Qed.

(** ** C6: every guard allows *)

Lemma remove_first_single id q :
  occurrences id q ≤ 1 → id ∉ remove_first id q.
Proof.
  unfold occurrences. induction q as [|x q IH]; simpl.
  - intros _ ?%elem_of_nil. done.
  - rewrite filter_cons. case_decide as Hx.
    + simpl. intros Hle Hin.
      assert (id ∈ filter (λ y, y = id) q) as Hf
        by (by apply list_elem_of_filter).
      destruct (filter _ q); [by apply elem_of_nil in Hf|simpl in Hle; lia].
    + intros Hle [->|Hin]%elem_of_cons; [done|]. by apply IH.
Qed.

(** What the success path of [closeModal] does: when every guard lets the
    close go on, all of them are called, the record leaves the registry,
    the first occurrence of the identity leaves the queue, and the promise
    is fulfilled with [true].  The identity is then absent from the queue
    provided it was there at most once. *)
Lemma all_guards_allow_closes st id a r :
  modalsMap st !! id = Some a →
  heap st !! a = Some r →
  closing r = false →
  Forall allows (all_fns (closePromises r)) →
  ∃ st',
    closeModal_await st id = (st', Some true) ∧
    trace st' = trace st ++ invocations (all_fns (closePromises r)) ∧
    modalsMap st' = delete id (modalsMap st) ∧
    modalQueue st' = remove_first id (modalQueue st) ∧
    (occurrences id (modalQueue st) ≤ 1 → id ∉ modalQueue st').
Proof.
  intros Hid Ha Hc Hall.
  destruct (closeModal_await_spec st id a r Hid Ha Hc)
    as (st' & Hrun & Htr & _ & Hreg).
  rewrite (evaluate_all_allow _ Hall) in *. simpl in *.
  destruct Hreg as [Hm Hq]. rewrite app_nil_r in Htr.
  exists st'. repeat split; try done.
  rewrite Hq. apply remove_first_single.
Qed.

(** C6 on the code: the identity is reopened while its close is being
    negotiated, and the new record, with a guard that allows, is closed.
    The close resolves to [true] and the registry forgets the identity,
    but the queue still holds it. *)
Lemma close_leaves_identity_in_queue :
  let st :=
    run DEFAULT_OPTIONS
      [OpOpen 0 1 ∅; OpAddClosePromise 1 5 (Guard 8 (Value VUndefined));
       OpCloseModal 1; OpOpen 0 1 ∅;
       OpAddClosePromise 1 6 (Guard 9 (Value VTrue))] in
  ∃ st', closeModal_await st 1 = (st', Some true) ∧
         calls (trace st') = calls (trace st) ++ [9] ∧
         modalsMap st' !! 1 = None ∧
         modalQueue st' = [1].
Proof. intros st. eexists. by vm_compute. Qed.

(** ** C7: closing what is not open *)

Lemma closeModal_absent st id :
  modalsMap st !! id = None → closeModal st id = (st, Done false).
Proof. intros H. unfold closeModal. by rewrite H. Qed.

Lemma closeModal_closing st id :
  closing_of st id = true → closeModal st id = (st, Done false).
Proof.
  unfold closing_of, closing_at, closeModal.
  destruct (modalsMap st !! id) as [a|]; [|done].
  destruct (heap st !! a) as [r|]; [|done]. by intros ->.
Qed.

(** A [closeModal] that resolves to [true] has removed the identity. *)
Lemma closeModal_await_true st id st' :
  closeModal_await st id = (st', Some true) → modalsMap st' !! id = None.
Proof.
  intros Hrun.
  destruct (modalsMap st !! id) as [a|] eqn:Hid.
  2: { unfold closeModal_await in Hrun.
       by rewrite closeModal_absent in Hrun. }
  destruct (heap st !! a) as [r|] eqn:Ha.
  2: { unfold closeModal_await, closeModal in Hrun.
       by rewrite Hid, Ha in Hrun. }
  destruct (closing r) eqn:Hc.
  { unfold closeModal_await in Hrun. rewrite closeModal_closing in Hrun;
      [done|]. unfold closing_of, closing_at. by rewrite Hid, Ha. }
  destruct (closeModal_await_spec st id a r Hid Ha Hc)
    as (st2 & Hrun2 & _ & _ & Hreg).
  rewrite Hrun in Hrun2.
  destruct (evaluate _).2; simplify_eq.
  destruct Hreg as [-> _]. apply lookup_delete_eq.
Qed.

(** C7.  [closeModal] on an identity that has no record, or whose record
    is already closing, returns [false] at once and leaves the whole
    state, trace included, as it was: no guard runs.  In particular,
    after a [closeModal] that resolved to [true], [close] on the same
    identity returns [false] and changes nothing. *)
Theorem closeModal_idempotent st id :
  (modalsMap st !! id = None ∨ closing_of st id = true →
   closeModal st id = (st, Done false)) ∧
  (∀ st0, closeModal_await st0 id = (st, Some true) →
          close id st = (st, Done false)).
Proof.
  split.
  - intros [H|H]; [by apply closeModal_absent|by apply closeModal_closing].
  - intros st0 Hrun. apply closeModal_await_true in Hrun.
    unfold close. by rewrite Hrun.
Qed.

(** ** Well-formedness of the reachable states *)

Lemma elem_of_remove_first x id q :
  x ≠ id → x ∈ q → x ∈ remove_first id q.
Proof.
  intros Hne. induction q as [|y q IH]; [done|]. simpl.
  rewrite elem_of_cons. intros [->|Hin].
  - rewrite decide_False by done. left.
  - case_decide; [done|]. right. auto.
Qed.

Lemma frame_refl id a st : negotiation_frame id a st st.
Proof. repeat split; auto. Qed.

Lemma frame_update id a f st : negotiation_frame id a st (update a f st).
Proof.
  split; [apply length_alter|]. split; [|by left].
  intros b Hb. by rewrite lookup_update, decide_False.
Qed.

Lemma frame_trans id a st1 st2 st3 :
  negotiation_frame id a st1 st2 →
  modalsMap st2 = modalsMap st1 → modalQueue st2 = modalQueue st1 →
  negotiation_frame id a st2 st3 → negotiation_frame id a st1 st3.
Proof.
  intros (Hl1 & Hh1 & _) Hm Hq (Hl2 & Hh2 & Hreg).
  split; [congruence|]. split.
  - intros b Hb. rewrite Hh2, Hh1; auto.
  - by rewrite <- Hm, <- Hq.
Qed.

Lemma next_guard_frame st tid id a fns :
  negotiation_frame id a st (next_guard st tid id a fns).1.
Proof.
  destruct fns as [|fn rest]; simpl.
  - unfold finish. destruct (closing_at st a); simpl.
    + repeat split; auto.
    + apply frame_refl.
  - destruct (awaited (gcall fn)); simpl.
    + repeat split; auto.
    + frame_alter.
Qed.

Lemma closeModal_frame st id a :
  modalsMap st !! id = Some a →
  negotiation_frame id a st (closeModal st id).1.
Proof.
  intros Hid. unfold closeModal. rewrite Hid.
  destruct (heap st !! a) as [r|]; [|apply frame_refl].
  destruct (closing r); [apply frame_refl|].
  eapply frame_trans; [apply frame_update|done|done|apply next_guard_frame].
Qed.

Lemma resume_frame st tid t st' c :
  tasks st !! tid = Some t → resume st tid = Some (st', c) →
  negotiation_frame (t_id t) (t_modal t) st st'.
Proof.
  intros Ht. unfold resume. rewrite Ht. intros [= Hres].
  destruct (t_await t) as [[]|]; simpl in Hres.
  1,3: (* the loop goes on *)
    match type of Hres with
    | next_guard ?s _ _ _ _ = _ =>
        pose proof (next_guard_frame s tid (t_id t) (t_modal t) (t_rest t))
          as Hf; rewrite Hres in Hf; exact Hf
    end.
  - injection Hres as <- _. frame_alter.
  - injection Hres as <- _. frame_alter.
Qed.

Lemma frame_wf id a st st' : negotiation_frame id a st st' → wf st → wf st'.
Proof.
  intros (Hl & _ & [[Hm Hq]|[Hm Hq]]) (Halloc & Hinj & Hqueue);
    unfold wf; rewrite Hl, Hm, Hq.
  - done.
  - split; [|split].
    + intros i b [_ H]%lookup_delete_Some. eauto.
    + intros i j b [_ Hi]%lookup_delete_Some [_ Hj]%lookup_delete_Some. eauto.
    + intros i b [Hne Hi]%lookup_delete_Some.
      apply elem_of_remove_first; eauto.
Qed.

Lemma wf_update a f st : wf st → wf (update a f st).
Proof. apply (frame_wf 0 a), frame_update. Qed.

Lemma wf_closeModal st id : wf st → wf (closeModal st id).1.
Proof.
  intros Hwf. destruct (modalsMap st !! id) as [a|] eqn:Hid.
  - eapply frame_wf; [by apply closeModal_frame|done].
  - by rewrite closeModal_absent.
Qed.

Lemma wf_evict options st : wf st → wf (evict options st).
Proof.
  intros Hwf. unfold evict.
  destruct (_ && _); [|done].
  destruct (last _); [|done].
  destruct (modalsMap st !! _); [|done]. by apply wf_closeModal.
Qed.

Lemma wf_create options c id st p : wf st → wf (create options c id st p).
Proof.
  intros (Halloc & Hinj & Hqueue). unfold wf, create. simpl.
  rewrite length_app. simpl. split; [|split].
  - intros i b [[_ <-]|[_ H]]%lookup_insert_Some; [lia|].
    apply Halloc in H. lia.
  - intros i j b [[<- <-]|[Hi Hib]]%lookup_insert_Some
               [[<- Hb]|[Hj Hjb]]%lookup_insert_Some; try done.
    + apply Halloc in Hjb. lia.
    + apply Halloc in Hib. lia.
    + eauto.
  - intros i b [[<- _]|[_ H]]%lookup_insert_Some; set_solver.
Qed.

Lemma wf_unregister id st :
  wf st →
  wf (State (heap st) (delete id (modalsMap st)) (modalQueue st) (tasks st)
        (next_tid st) (trace st)).
Proof.
  intros (Halloc & Hinj & Hqueue). unfold wf. simpl. split; [|split].
  - intros i b [_ H]%lookup_delete_Some. eauto.
  - intros i j b [_ Hi]%lookup_delete_Some [_ Hj]%lookup_delete_Some. eauto.
  - intros i b [_ H]%lookup_delete_Some. eauto.
Qed.

Lemma wf_open options c id st p : wf st → wf (open options c id st p).
Proof.
  intros Hwf%(wf_evict options). unfold open.
  destruct (modalsMap _ !! id) as [a|]; [|by apply wf_create].
  destruct (negb _); [by apply wf_update|].
  apply wf_create.
  apply (wf_unregister id (update a _ (update a _ (evict options st)))).
  by do 2 apply wf_update.
Qed.

Lemma wf_step options st o : wf st → wf (step options st o).
Proof.
  intros Hwf. destruct o as [c id p|id|id|m cid fn|m cid|tid]; simpl.
  - by apply wf_open.
  - unfold close. destruct (modalsMap st !! id); [|done].
    by apply wf_closeModal.
  - by apply wf_closeModal.
  - unfold addClosePromise. destruct (modalsMap st !! m); [|done].
    by apply wf_update.
  - unfold removeComponentPromises. destruct (modalsMap st !! m); [|done].
    by apply wf_update.
  - destruct (resume st tid) as [[st' c]|] eqn:Hres; [|done].
    destruct (tasks st !! tid) as [t|] eqn:Ht.
    + eapply frame_wf; [by eapply resume_frame|done].
    + unfold resume in Hres. by rewrite Ht in Hres.
Qed.

Lemma wf_init : wf init.
Proof. repeat split; intros ?; by rewrite ?lookup_empty. Qed.

Lemma reachable_wf options st : reachable options st → wf st.
Proof.
  intros [ops ->]. unfold run.
  induction ops as [|o ops IH] using rev_ind; [apply wf_init|].
  rewrite foldl_app. simpl. by apply wf_step.
Qed.

(** ** C2: reopening while the close is being negotiated *)

(** The eviction of [open] leaves a record that is already closing, and
    its registration, alone. *)
Lemma evict_keeps options st id a r :
  wf st → modalsMap st !! id = Some a → heap st !! a = Some r →
  closing r = true →
  modalsMap (evict options st) !! id = Some a ∧
  heap (evict options st) !! a = Some r ∧
  length (heap (evict options st)) = length (heap st).
Proof.
  intros (_ & Hinj & _) Hid Ha Hc. unfold evict.
  destruct (_ && _); [|done].
  destruct (last _) as [x|]; [|done].
  destruct (modalsMap st !! x) as [ax|] eqn:Hx; [|done].
  destruct (decide (x = id)) as [->|Hne].
  - rewrite closeModal_closing; [done|].
    unfold closing_of, closing_at. by rewrite Hid, Ha.
  - destruct (closeModal_frame st x ax Hx) as (Hl & Hh & Hreg).
    assert (a ≠ ax) as Haax by (intros ->; eauto).
    split; [|split; [by rewrite Hh|done]].
    destruct Hreg as [[-> _]|[-> _]]; [done|].
    by rewrite lookup_delete_ne.
Qed.

(** What [open] does on a record that is closing. *)
Lemma open_reopen options c id st p a r :
  wf st → modalsMap st !! id = Some a → heap st !! a = Some r →
  closing r = true →
  let st1 := evict options st in
  open options c id st p =
    State
      (alter (set_isClosing false) a (alter (assign_props p) a (heap st1)) ++
       [ModalRecord c (other_props p) true
          (VStyle (baseZIndex options + Z.of_nat (length (modalQueue st1))))
          None []])
      (<[id := length (heap st)]> (delete id (modalsMap st1)))
      (modalQueue st1 ++ [id])
      (tasks st1) (next_tid st1) (trace st1).
Proof.
  intros Hwf Hid Ha Hc. cbv zeta.
  destruct (evict_keeps options st id a r Hwf Hid Ha Hc) as (Hid1 & Ha1 & Hl).
  unfold open. rewrite Hid1.
  rewrite (closing_at_update _ _ _ r) by done.
  change (closing (assign_props p r)) with (closing r). rewrite Hc.
  unfold create. simpl. by rewrite !length_alter, Hl.
Qed.

Lemma closing_at_cleared s st a f :
  heap s = alter f a (heap st) → (∀ r, closing (f r) = false) →
  closing_at s a = false.
Proof.
  intros Hh Hf. unfold closing_at. rewrite Hh, list_lookup_alter_eq.
  destruct (heap st !! a); simpl; auto.
Qed.

(** A negotiation whose record is not closing any more runs out without
    touching anything but that record, which stays not closing, and
    resolves to [false]. *)
Lemma stale_drive fuel :
  ∀ st tid t st' res,
    tasks st !! tid = Some t →
    closing_at st (t_modal t) = false →
    drive fuel st tid = (st', res) →
    modalsMap st' = modalsMap st ∧
    modalQueue st' = modalQueue st ∧
    length (heap st') = length (heap st) ∧
    (∀ b, b ≠ t_modal t → heap st' !! b = heap st !! b) ∧
    closing_at st' (t_modal t) = false ∧
    (length (t_rest t) < fuel → res = Some false).
Proof.
  induction fuel as [|fuel IH]; intros st tid t st' res Ht Hc Hrun.
  { simpl in Hrun. injection Hrun as <- <-. repeat split; auto. lia. }
  simpl in Hrun. unfold resume in Hrun. rewrite Ht in Hrun.
  assert (∀ s f, heap s = alter f (t_modal t) (heap st) →
                 (∀ r, closing (f r) = false) →
                 modalsMap s = modalsMap st → modalQueue s = modalQueue st →
                 (s, Some false) = (st', res) →
    modalsMap st' = modalsMap st ∧ modalQueue st' = modalQueue st ∧
    length (heap st') = length (heap st) ∧
    (∀ b, b ≠ t_modal t → heap st' !! b = heap st !! b) ∧
    closing_at st' (t_modal t) = false ∧
    (length (t_rest t) < S fuel → res = Some false)) as Hend.
  { intros s f Hh Hf Hm Hq [= <- <-]. split; [done|]. split; [done|].
    split; [by rewrite Hh, length_alter|]. split.
    - intros b Hb. by rewrite Hh, list_lookup_alter_ne.
    - split; [by eapply closing_at_cleared|done]. }
  destruct (t_await t) as [v|] eqn:Haw.
  2: { simpl in Hrun. eapply Hend; [| | | |exact Hrun]; simpl; auto. }
  assert (v = VFalse ∨ v ≠ VFalse) as [->|Hv] by (destruct v; auto).
  { simpl in Hrun. eapply Hend; [| | | |exact Hrun]; simpl; auto. }
  assert (match v with
          | VFalse => on_deny (State (heap st) (modalsMap st) (modalQueue st)
                        (delete tid (tasks st)) (next_tid st) (trace st))
                        (t_modal t)
          | _ => next_guard (State (heap st) (modalsMap st) (modalQueue st)
                   (delete tid (tasks st)) (next_tid st) (trace st)) tid
                   (t_id t) (t_modal t) (t_rest t)
          end =
          next_guard (State (heap st) (modalsMap st) (modalQueue st)
            (delete tid (tasks st)) (next_tid st) (trace st)) tid
            (t_id t) (t_modal t) (t_rest t)) as Heq by (by destruct v).
  rewrite Heq in Hrun. clear Heq.
  destruct (t_rest t) as [|fn rest] eqn:Hrest.
  - simpl in Hrun. unfold finish in Hrun.
    change (closing_at (State (heap st) _ _ _ _ _) (t_modal t))
      with (closing_at st (t_modal t)) in Hrun.
    rewrite Hc in Hrun. injection Hrun as <- <-. repeat split; auto.
  - simpl in Hrun. destruct (awaited (gcall fn)) as [q|].
    + unfold suspend in Hrun.
      eapply IH in Hrun as (Hm & Hq & Hl & Hh & Hc' & Hres);
        [|simpl; apply lookup_insert_eq|exact Hc].
      simpl in *. repeat split; auto. intros. apply Hres. lia.
    + simpl in Hrun. eapply Hend; [| | | |exact Hrun]; simpl; auto.
Qed.

(** A retired record stays retired whatever is done next: nothing but a
    [closeModal] that finds the record in the registry sets [isClosing],
    and a new record gets a new address. *)
Lemma retired_frame id a0 a st st' :
  a0 ≠ a → negotiation_frame id a0 st st' → retired a st → retired a st'.
Proof.
  intros Hne (Hl & Hh & Hreg) (Hlt & Hc & Hun). unfold retired, closing_at.
  rewrite Hl, Hh by done. split; [done|]. split; [exact Hc|].
  intros i. destruct Hreg as [[-> _]|[-> _]]; [done|].
  intros [_ H]%lookup_delete_Some. by apply (Hun i).
Qed.

Lemma retired_closeModal a st id :
  retired a st → retired a (closeModal st id).1.
Proof.
  intros Hret. destruct (modalsMap st !! id) as [a0|] eqn:Hid.
  - eapply retired_frame; [|by apply closeModal_frame|done].
    intros ->. destruct Hret as (_ & _ & Hun). by apply (Hun id).
  - by rewrite closeModal_absent.
Qed.

Lemma retired_update a a0 f st :
  a0 ≠ a → retired a st → retired a (update a0 f st).
Proof. intros Hne. apply (retired_frame 0 a0); [done|apply frame_update]. Qed.

Lemma retired_resume a st tid st' c :
  retired a st → resume st tid = Some (st', c) → retired a st'.
Proof.
  intros Hret Hres. destruct (tasks st !! tid) as [t|] eqn:Ht.
  2: { unfold resume in Hres. by rewrite Ht in Hres. }
  destruct (decide (t_modal t = a)) as [Hta|Hne].
  - destruct Hret as (Hlt & Hc & Hun). rewrite <- Hta in Hc.
    assert (∃ res, drive 1 st tid = (st', res)) as [res Hrun].
    { simpl. rewrite Hres. destruct c; eauto. }
    destruct (stale_drive 1 st tid t st' res Ht Hc Hrun)
      as (Hm & _ & Hl & _ & Hc' & _).
    unfold retired. rewrite Hl, Hm, <- Hta.
    split; [by rewrite Hta|]. split; [done|]. by rewrite Hta.
  - eapply retired_frame; [exact Hne|by eapply resume_frame|done].
Qed.

Lemma retired_create options c id a st p :
  retired a st → retired a (create options c id st p).
Proof.
  intros (Hlt & Hc & Hun). unfold retired, closing_at, create. simpl.
  rewrite length_app, lookup_app_l by done. split; [lia|]. split; [exact Hc|].
  intros i [[_ ?]|[_ ?]]%lookup_insert_Some; [lia|]. by apply (Hun i).
Qed.

Lemma retired_unregister id a st :
  retired a st →
  retired a (State (heap st) (delete id (modalsMap st)) (modalQueue st)
               (tasks st) (next_tid st) (trace st)).
Proof.
  intros (Hlt & Hc & Hun). split; [done|]. split; [done|]. simpl.
  intros i [_ ?]%lookup_delete_Some. by apply (Hun i).
Qed.

Lemma retired_open options c id a st p :
  retired a st → retired a (open options c id st p).
Proof.
  intros Hret. assert (retired a (evict options st)) as Hret1.
  { unfold evict. destruct (_ && _); [|done]. destruct (last _); [|done].
    destruct (modalsMap st !! _); [|done]. by apply retired_closeModal. }
  unfold open.
  destruct (modalsMap _ !! id) as [a0|] eqn:Hid; [|by apply retired_create].
  assert (a0 ≠ a) as Hne.
  { intros ->. destruct Hret1 as (_ & _ & Hun). by apply (Hun id). }
  pose proof (retired_update a a0 (assign_props p) _ Hne Hret1) as Hret2.
  destruct (negb _); [exact Hret2|].
  apply retired_create.
  apply (retired_unregister id a (update a0 _ (update a0 _ _))).
  exact (retired_update a a0 _ _ Hne Hret2).
Qed.

Lemma retired_step options a st o :
  retired a st → retired a (step options st o).
Proof.
  intros Hret. destruct o as [c id p|id|id|m cid fn|m cid|tid]; simpl.
  - by apply retired_open.
  - unfold close. destruct (modalsMap st !! id); [|done].
    by apply retired_closeModal.
  - by apply retired_closeModal.
  - unfold addClosePromise. destruct (modalsMap st !! m) as [a0|] eqn:Hm;
      [|done].
    refine (retired_update a a0 _ _ _ Hret). intros ->.
    destruct Hret as (_ & _ & Hun). by apply (Hun m).
  - unfold removeComponentPromises.
    destruct (modalsMap st !! m) as [a0|] eqn:Hm; [|done].
    refine (retired_update a a0 _ _ _ Hret). intros ->.
    destruct Hret as (_ & _ & Hun). by apply (Hun m).
  - destruct (resume st tid) as [[st' c]|] eqn:Hres; [|done].
    by eapply retired_resume.
Qed.

Lemma retired_steps options a ops :
  ∀ st, retired a st → retired a (foldl (step options) st ops).
Proof.
  induction ops as [|o ops IH]; intros st Hret; [done|].
  simpl. by apply IH, retired_step.
Qed.

(** C2.  [open] on an identity whose record is closing cancels the close
    and registers a new record object: the old object gets
    [isClosing = false] and leaves the registry, the new one is visible,
    not closing, carries exactly the props of this call ([visible] and
    [style] being set by [open] itself) and an empty guard map, and the
    identity is pushed on the queue once more.  Whatever the
    guards of the negotiation parked on the old object answer, resuming
    it, any number of times, neither unregisters nor changes the new
    record, and that negotiation resolves to [false].  The same holds
    when the negotiation is resumed later, after any further operations:
    it changes neither the registry nor any record but the old object. *)
Theorem reopen_during_close options c id st p a r :
  reachable options st →
  modalsMap st !! id = Some a →
  heap st !! a = Some r →
  closing r = true →
  let st' := open options c id st p in
  let a' := length (heap st) in
  let fresh :=
    ModalRecord c (other_props p) true
      (VStyle (baseZIndex options +
               Z.of_nat (length (modalQueue (evict options st)))))
      None [] in
  modalsMap st' !! id = Some a' ∧ a' ≠ a ∧
  heap st' !! a' = Some fresh ∧
  (∀ k, k ≠ "visible" → k ≠ "style" → props fresh !! k = p !! k) ∧
  closing_at st' a = false ∧
  isVisible id st' = true ∧ closing_of st' id = false ∧
  modalQueue st' = modalQueue (evict options st) ++ [id] ∧
  (∀ tid t, tasks st' !! tid = Some t → t_modal t = a →
     (∀ fuel, modalsMap (drive fuel st' tid).1 !! id = Some a' ∧
              heap (drive fuel st' tid).1 !! a' = Some fresh) ∧
     (settle st' tid).2 = Some false) ∧
  (∀ ops tid t,
     let st2 := foldl (step options) st' ops in
     tasks st2 !! tid = Some t → t_modal t = a →
     (∀ fuel, modalsMap (drive fuel st2 tid).1 = modalsMap st2 ∧
              ∀ b, b ≠ a → heap (drive fuel st2 tid).1 !! b = heap st2 !! b) ∧
     (settle st2 tid).2 = Some false).
Proof.
  intros Hwf%reachable_wf Hid Ha Hc st' a' fresh.
  destruct (evict_keeps options st id a r Hwf Hid Ha Hc) as (Hid1 & Ha1 & Hl).
  assert (a < a') as Hlt by (by eapply lookup_lt_Some).
  assert (modalsMap st' !! id = Some a') as Hid'.
  { unfold st'. rewrite (open_reopen options c id st p a r) by done.
    simpl. apply lookup_insert_eq. }
  assert (heap st' !! a' = Some fresh) as Ha'.
  { unfold st'. rewrite (open_reopen options c id st p a r) by done.
    simpl. apply list_lookup_middle. by rewrite !length_alter. }
  assert (closing_at st' a = false) as Hca.
  { unfold st', closing_at.
    rewrite (open_reopen options c id st p a r) by done. simpl.
    rewrite lookup_app_l by (rewrite !length_alter; lia).
    by rewrite !list_lookup_alter_eq, Ha1. }
  split; [done|]. split; [lia|]. split; [done|].
  split; [intros k Hv Hs; by apply other_props_lookup|]. split; [done|].
  split; [by rewrite (isVisible_lookup st' id a' fresh)|].
  split; [unfold closing_of, closing_at; by rewrite Hid', Ha'|].
  split.
  { unfold st'. by rewrite (open_reopen options c id st p a r). }
  assert (∀ s tid t, closing_at s a = false →
            tasks s !! tid = Some t → t_modal t = a →
            (∀ fuel, modalsMap (drive fuel s tid).1 = modalsMap s ∧
               ∀ b, b ≠ a → heap (drive fuel s tid).1 !! b = heap s !! b) ∧
            (settle s tid).2 = Some false) as Hstale.
  { intros s tid t Hcs Ht Hta. rewrite <- Hta in Hcs. split.
    - intros fuel. destruct (drive fuel s tid) as [s' res] eqn:Hrun.
      destruct (stale_drive fuel s tid t s' res Ht Hcs Hrun)
        as (Hm & _ & _ & Hh & _ & _).
      simpl. split; [done|]. intros b Hb. apply Hh. by rewrite Hta.
    - unfold settle, turns_left. rewrite Ht.
      destruct (drive _ s tid) as [s' res] eqn:Hrun.
      destruct (stale_drive _ s tid t s' res Ht Hcs Hrun)
        as (_ & _ & _ & _ & _ & Hres).
      simpl. apply Hres. lia. }
  split.
  - intros tid t Ht Hta.
    destruct (Hstale st' tid t Hca Ht Hta) as [Hkeep Hres].
    split; [|exact Hres]. intros fuel. destruct (Hkeep fuel) as [Hm Hh].
    rewrite Hm, Hh; [done|lia].
  - intros ops tid t st2 Ht Hta. apply (Hstale st2 tid t); [|done..].
    assert (retired a st') as Hret.
    { split; [|split; [exact Hca|]].
      - unfold st'. rewrite (open_reopen options c id st p a r) by done.
        simpl. rewrite length_app, !length_alter. lia.
      - intros i. unfold st'.
        rewrite (open_reopen options c id st p a r) by done. simpl.
        intros [[_ ?]|[Hi Hia]]%lookup_insert_Some; [lia|].
        apply lookup_delete_Some in Hia as [_ Hia].
        apply (wf_evict options) in Hwf as (_ & Hinj & _).
        by specialize (Hinj _ _ _ Hid1 Hia). }
    by destruct (retired_steps options a ops st' Hret) as (_ & ? & _).
Qed.

(** ** C10: the queue entry a reopen leaves behind *)

Lemma occurrences_elem_of id q : id ∈ q → 1 ≤ occurrences id q.
Proof.
  unfold occurrences. induction q as [|x q IH]; [by intros ?%elem_of_nil|].
  intros [->|Hin]%elem_of_cons.
  - rewrite filter_cons_True by done. simpl. lia.
  - specialize (IH Hin). rewrite filter_cons. case_decide; simpl; lia.
Qed.

Lemma occurrences_snoc id q : occurrences id (q ++ [id]) = S (occurrences id q).
Proof.
  unfold occurrences. rewrite filter_app, length_app.
  rewrite filter_cons_True by done. simpl. lia.
Qed.

Lemma remove_first_app id q l :
  id ∈ q → remove_first id (q ++ l) = remove_first id q ++ l.
Proof.
  induction q as [|x q IH]; [by intros ?%elem_of_nil|].
  intros Hin. simpl. case_decide as Hx; [done|].
  apply elem_of_cons in Hin as [->|Hin]; [done|].
  simpl. f_equal. auto.
Qed.

Lemma remove_first_split id pre post :
  id ∉ pre → remove_first id (pre ++ id :: post) = pre ++ post.
Proof.
  induction pre as [|x pre IH]; simpl.
  - intros _. by rewrite decide_True.
  - intros [Hx Hpre]%not_elem_of_cons. rewrite decide_False by done.
    f_equal. auto.
Qed.

(** C10.  [open] on an identity whose record is closing unregisters the
    old record object but leaves the entry of the identity in the queue
    and pushes the identity again: the queue, [pre ++ id :: post] with
    [id] not in [pre] before the push, is [pre ++ id :: post ++ [id]]
    after it and holds the identity at least twice.  A close of the new
    record that succeeds removes the first occurrence and only it: the
    queue is then [pre ++ post ++ [id]], so the identity is still in the
    queue when it is no longer in the registry. *)
Theorem reopen_leaves_stale_queue_entry options c id st p a r :
  reachable options st →
  modalsMap st !! id = Some a →
  heap st !! a = Some r →
  closing r = true →
  let st' := open options c id st p in
  (allowMultiple options = true →
   modalQueue (evict options st) = modalQueue st) ∧
  modalsMap st' !! id = Some (length (heap st)) ∧
  length (heap st) ≠ a ∧
  ∃ pre post,
    modalQueue (evict options st) = pre ++ id :: post ∧
    (id ∉ pre) ∧
    modalQueue st' = pre ++ id :: post ++ [id] ∧
    2 ≤ occurrences id (modalQueue st') ∧
    ∃ st'',
      closeModal_await st' id = (st'', Some true) ∧
      modalsMap st'' !! id = None ∧
      modalQueue st'' = pre ++ post ++ [id] ∧
      id ∈ modalQueue st''.
Proof.
  intros Hwf%reachable_wf Hid Ha Hc st'.
  destruct (evict_keeps options st id a r Hwf Hid Ha Hc) as (Hid1 & Ha1 & Hl).
  assert (id ∈ modalQueue (evict options st)) as Hin.
  { apply (wf_evict options) in Hwf as (_ & _ & Hq). eauto. }
  assert (a < length (heap st)) as Hlt by (by eapply lookup_lt_Some).
  assert (modalQueue st' = modalQueue (evict options st) ++ [id]) as Hq'.
  { unfold st'. by rewrite (open_reopen options c id st p a r). }
  assert (modalsMap st' !! id = Some (length (heap st))) as Hid'.
  { unfold st'. rewrite (open_reopen options c id st p a r) by done.
    simpl. apply lookup_insert_eq. }
  assert (∃ z, heap st' !! length (heap st) =
               Some (ModalRecord c (other_props p) true z None []))
    as [z Ha'].
  { unfold st'. rewrite (open_reopen options c id st p a r) by done.
    simpl. eexists. apply list_lookup_middle. by rewrite !length_alter. }
  split.
  { intros Hmulti. unfold evict. by rewrite Hmulti. }
  split; [done|]. split; [lia|].
  destruct (list_elem_of_split_l _ _ Hin) as (pre & post & Hsplit & Hpre).
  exists pre, post. split; [done|]. split; [done|].
  split; [by rewrite Hq', Hsplit, <- app_assoc|].
  split.
  { rewrite Hq', occurrences_snoc.
    pose proof (occurrences_elem_of _ _ Hin). lia. }
  destruct (closeModal_await_spec st' id _ _ Hid' Ha' eq_refl)
    as (st'' & Hrun & _ & _ & Hm & Hq).
  simpl in *. exists st''. split; [done|].
  split; [rewrite Hm; apply lookup_delete_eq|].
  assert (modalQueue st'' = pre ++ post ++ [id]) as Hq''.
  { rewrite Hq, Hq', Hsplit, <- app_assoc. simpl.
    by rewrite remove_first_split. }
  split; [done|]. rewrite Hq''. set_solver.
Qed.

(** ** C3: the records of the registry are live *)

Lemma all_fns_cons k w (m : list (nat * list guard)) :
  all_fns ((k, w) :: m) = w ++ all_fns m.
Proof. done. Qed.

Lemma cp_get_all_fns m c v fn :
  cp_get m c = Some v → fn ∈ v → fn ∈ all_fns m.
Proof.
  induction m as [|[k w] m IH]; [done|]. simpl. rewrite all_fns_cons.
  rewrite elem_of_app. case_decide.
  - intros [= <-] Hin. by left.
  - intros Hget Hin. right. auto.
Qed.

Lemma all_fns_cp_set m c v fn :
  fn ∈ all_fns (cp_set m c v) → fn ∈ v ∨ fn ∈ all_fns m.
Proof.
  induction m as [|[k w] m IH]; simpl.
  - rewrite all_fns_cons, elem_of_app. intros [?|?]; auto.
  - case_decide; rewrite !all_fns_cons, !elem_of_app.
    + intros [?|?]; auto.
    + intros [?|[?|?]%IH]; auto.
Qed.

Lemma all_fns_cp_delete m c fn :
  fn ∈ all_fns (cp_delete m c) → fn ∈ all_fns m.
Proof.
  induction m as [|[k w] m IH]; [done|]. simpl.
  case_decide; rewrite !all_fns_cons, ?elem_of_app.
  - intros ?%IH. auto.
  - intros [?|?%IH]; auto.
Qed.

Lemma calm_weaken st st' :
  heap st' = heap st → modalsMap st' ⊆ modalsMap st → tasks st' ⊆ tasks st →
  calm st → calm st'.
Proof.
  intros Hh Hm Ht (Hlive & Hreg & Htasks). unfold calm. rewrite Hh.
  split; [|split]; [|done|].
  - intros id a Hid. eapply Hlive, lookup_weaken; eauto.
  - intros tid t Htid. eapply Htasks, lookup_weaken; eauto.
Qed.

Lemma calm_update st a f :
  (∀ r, live r → live (f r)) →
  (∀ r, closePromises (f r) = closePromises r) →
  calm st → calm (update a f st).
Proof.
  intros Hf Hcp (Hlive & Hreg & Htasks). split; [|split]; [| |done].
  - intros id b Hid. destruct (Hlive id b Hid) as (r & Hb & Hr).
    rewrite lookup_update. case_decide; subst; rewrite Hb; simpl; eauto.
  - intros b r. rewrite lookup_update. case_decide; subst; [|by eauto].
    destruct (heap st !! b) as [r0|] eqn:Hb; [|done].
    intros [= <-]. rewrite Hcp. eauto.
Qed.

Lemma calm_hooks st a f :
  (∀ r fn, fn ∈ all_fns (closePromises (f r)) →
           benign fn ∨ fn ∈ all_fns (closePromises r)) →
  (∀ r, visible (f r) = visible r ∧ isClosing (f r) = isClosing r) →
  calm st → calm (update a f st).
Proof.
  intros Hf Hsame (Hlive & Hreg & Htasks). split; [|split]; [| |done].
  - intros id b Hid. destruct (Hlive id b Hid) as (r & Hb & Hr).
    rewrite lookup_update. case_decide; subst; rewrite Hb; simpl; [|by eauto].
    eexists. split; [done|]. destruct (Hsame r) as [Hv Hc].
    unfold live, closing in *. by rewrite Hv, Hc.
  - intros b r. rewrite lookup_update. case_decide; subst; [|by eauto].
    destruct (heap st !! b) as [r0|] eqn:Hb; [|done].
    intros [= <-]. apply Forall_forall. intros fn Hfn.
    destruct (Hf _ _ Hfn) as [?|Hin]; [done|].
    specialize (Hreg _ _ Hb). rewrite Forall_forall in Hreg. auto.
Qed.

Lemma benign_awaited fn :
  benign fn → ∃ v, awaited (gcall fn) = Some (Fulfilled v).
Proof. intros [??]. destruct (gcall fn) as [|[|]|]; simpl; by eauto. Qed.

Lemma calm_next_guard st tid id a fns :
  calm st → Forall benign fns → calm (next_guard st tid id a fns).1.
Proof.
  intros Hcalm Hfns. destruct fns as [|fn rest]; simpl.
  - unfold finish. destruct (closing_at st a); [|done]. simpl.
    eapply calm_weaken; [..|exact Hcalm]; [done| |done].
    apply delete_subseteq.
  - apply Forall_cons in Hfns as [(v & ->)%benign_awaited Hrest]. simpl.
    destruct Hcalm as (Hlive & Hreg & Htasks). split; [|split]; [done..|].
    simpl. intros tid' t [[_ <-]|[_ Ht]]%lookup_insert_Some; eauto.
Qed.

Lemma calm_closeModal st id : calm st → calm (closeModal st id).1.
Proof.
  intros Hcalm. unfold closeModal.
  destruct (modalsMap st !! id) as [a|]; [|done].
  destruct (heap st !! a) as [r|] eqn:Ha; [|done].
  destruct (closing r); [done|].
  apply calm_next_guard.
  - apply calm_update; [by right|done|done].
  - destruct Hcalm as (_ & Hreg & _). eauto.
Qed.

Lemma calm_resume st tid st' c :
  calm st → resume st tid = Some (st', c) → calm st'.
Proof.
  intros Hcalm. unfold resume.
  destruct (tasks st !! tid) as [t|] eqn:Ht; [|done]. intros [= Hres].
  assert (calm (State (heap st) (modalsMap st) (modalQueue st)
                  (delete tid (tasks st)) (next_tid st) (trace st))) as Hcalm0.
  { eapply calm_weaken; [..|exact Hcalm]; [done..|]. apply delete_subseteq. }
  destruct Hcalm as (_ & _ & Htasks).
  destruct (Htasks _ _ Ht) as [Hrej Hrest].
  destruct (t_await t) as [v|]; [|done].
  assert (st' = (on_deny (State (heap st) (modalsMap st) (modalQueue st)
                    (delete tid (tasks st)) (next_tid st) (trace st))
                   (t_modal t)).1 ∨
          st' = (next_guard (State (heap st) (modalsMap st) (modalQueue st)
                    (delete tid (tasks st)) (next_tid st) (trace st)) tid
                   (t_id t) (t_modal t) (t_rest t)).1) as [->| ->].
  { destruct v; rewrite Hres; auto. }
  - apply calm_update; [by left|done|done].
  - by apply calm_next_guard.
Qed.

Lemma calm_evict options st : calm st → calm (evict options st).
Proof.
  intros Hcalm. unfold evict.
  destruct (_ && _); [|done].
  destruct (last _); [|done].
  destruct (modalsMap st !! _); [|done]. by apply calm_closeModal.
Qed.

Lemma calm_create options c id st p :
  calm st → calm (create options c id st p).
Proof.
  intros (Hlive & Hreg & Htasks). split; [|split]; [| |done]; simpl.
  - intros i b [[_ <-]|[_ Hi]]%lookup_insert_Some.
    + eexists. split; [by apply list_lookup_middle|by left].
    + destruct (Hlive i b Hi) as (r & Hb & Hr). exists r.
      split; [|done]. by apply lookup_app_l_Some.
  - intros b r [Hb|[_ Hb]]%lookup_app_Some; [by eauto|].
    destruct (b - length (heap st)) as [|n]; simplify_eq/=. constructor.
Qed.

Lemma calm_open options c id st p :
  (∀ v, p !! "visible" = Some v → v = VBool true) →
  wf st → calm st → calm (open options c id st p).
Proof.
  intros Hp Hwf%(wf_evict options) Hcalm%(calm_evict options). unfold open.
  destruct (modalsMap _ !! id) as [a|] eqn:Hid; [|by apply calm_create].
  set (st2 := update a (assign_props p) (evict options st)).
  assert (calm st2) as Hcalm2.
  { apply calm_update; [|done|done]. intros r [Hv|Hc]; [left|by right].
    simpl. destruct (p !! "visible") as [v|] eqn:Hpv; [|done].
    simpl. by rewrite (Hp v). }
  destruct (negb _); [done|].
  apply calm_create.
  destruct Hwf as (_ & Hinj & _).
  destruct Hcalm2 as (Hlive & Hreg & Htasks). split; [|split]; simpl.
  - intros j b [Hj Hjb]%lookup_delete_Some.
    assert (a ≠ b) as Hab by (intros <-; eauto).
    rewrite list_lookup_alter_ne by done. by apply (Hlive j).
  - intros b r Hb. change (heap (update a (set_isClosing false) st2) !! b
                           = Some r) in Hb.
    rewrite lookup_update in Hb. case_decide; subst; [|by eauto].
    destruct (heap st2 !! b) as [r0|] eqn:Hb0; [|done].
    simpl in Hb. injection Hb as <-. exact (Hreg b r0 Hb0).
  - done.
Qed.

Lemma calm_step options st o :
  wf st → calm st → op_benign o → calm (step options st o).
Proof.
  intros Hwf Hcalm Ho.
  destruct o as [c id p|id|id|m cid fn|m cid|tid]; simpl.
  - by apply calm_open.
  - unfold close. destruct (modalsMap st !! id); [|done].
    by apply calm_closeModal.
  - by apply calm_closeModal.
  - unfold addClosePromise. destruct (modalsMap st !! m); [|done].
    apply calm_hooks; [|done|done].
    intros r g [Hg|Hg]%all_fns_cp_set; [|by right].
    apply elem_of_cons in Hg as [->|Hg]; [by left|]. right.
    destruct (cp_get (closePromises r) cid) as [v|] eqn:Hget;
      [by eapply cp_get_all_fns|by apply elem_of_nil in Hg].
  - unfold removeComponentPromises. destruct (modalsMap st !! m); [|done].
    apply calm_hooks; [|done|done].
    intros r g Hg%all_fns_cp_delete. by right.
  - destruct (resume st tid) as [[st' c]|] eqn:Hres; [|done].
    by eapply calm_resume.
Qed.

Lemma calm_run options ops :
  Forall op_benign ops → wf (run options ops) ∧ calm (run options ops).
Proof.
  unfold run. induction ops as [|o ops IH] using rev_ind; intros Hops.
  - split; [apply wf_init|]. by split; [|split]; intros ??.
  - apply Forall_app in Hops as [Hops Ho%Forall_inv].
    destruct (IH Hops) as [Hwf Hcalm]. rewrite foldl_app. simpl.
    split; [by apply wf_step|by apply calm_step].
Qed.

(** C3 (as the code has it).  In every state reached by [open], [close],
    [closeModal], the resumption of parked negotiations, [addClosePromise]
    and [removeComponentPromises] in which no registered guard throws or
    returns a rejecting promise and no [open] is called with a [visible]
    prop other than [true], an identity has a record in the registry if
    and only if that record is visible or closing. *)
Theorem registry_records_live options ops id :
  Forall op_benign ops →
  let st := run options ops in
  is_Some (modalsMap st !! id) ↔
    isVisible id st = true ∨ closing_of st id = true.
Proof.
  intros Hops st. destruct (calm_run options ops Hops) as [_ (Hlive & _)].
  fold st in Hlive. unfold isVisible, closing_of, closing_at. split.
  - intros [a Hid]. destruct (Hlive id a Hid) as (r & Ha & Hr).
    by rewrite Hid, Ha.
  - destruct (modalsMap st !! id); [by eexists|]. by intros [?|?].
Qed.

(** C3, as the specification states it, fails: a guard that throws leaves
    the record in the registry, neither visible nor closing. *)
Lemma registry_invariant_broken_by_guard_error :
  let st :=
    run DEFAULT_OPTIONS
      [OpOpen 0 1 ∅; OpAddClosePromise 1 5 (Guard 9 Throw); OpCloseModal 1] in
  ¬ (is_Some (modalsMap st !! 1) ↔
       isVisible 1 st = true ∨ closing_of st 1 = true).
Proof.
  intros st [Hreg _].
  assert (is_Some (modalsMap st !! 1)) as H%Hreg by (by exists 0).
  by destruct H as [H|H]; vm_compute in H.
Qed.

(** So does a bag that carries [visible: false]: [Object.assign] writes
    it into the props of the open record. *)
Lemma registry_invariant_broken_by_visible_prop :
  let st :=
    run DEFAULT_OPTIONS
      [OpOpen 0 1 ∅; OpOpen 0 1 {["visible" := VBool false]}] in
  trace st = [] ∧
  ¬ (is_Some (modalsMap st !! 1) ↔
       isVisible 1 st = true ∨ closing_of st 1 = true).
Proof.
  intros st. split; [done|]. intros [Hreg _].
  assert (is_Some (modalsMap st !! 1)) as H%Hreg by (by exists 0).
  by destruct H as [H|H]; vm_compute in H.
Qed.

(** ** C9: stacking values *)

Lemma open_fresh options c id st p :
  allowMultiple options = true → modalsMap st !! id = None →
  open options c id st p = create options c id st p.
Proof. intros Hm Hid. unfold open, evict. rewrite Hm. simpl. by rewrite Hid. Qed.

Lemma closeModal_no_guards st id a r :
  modalsMap st !! id = Some a → heap st !! a = Some r →
  closing r = false → closePromises r = [] →
  closeModal st id =
    (State (alter (λ r, set_isClosing true (set_visible false r)) a (heap st))
       (delete id (modalsMap st)) (remove_first id (modalQueue st))
       (tasks st) (next_tid st) (trace st),
     Done true).
Proof.
  intros Hid Ha Hc Hcp. unfold closeModal. rewrite Hid, Ha, Hc, Hcp. simpl.
  unfold finish. by rewrite (closing_at_update _ _ _ r).
Qed.

(** C9 (as the code has it).  A new record gets the stacking value
    [baseZIndex] plus the length of the queue at its creation (shown for
    [allowMultiple = true], where [open] evicts nothing first).  Opening
    [A], [B], [C] gives the queue [A; B; C]; closing [B], which has no
    guard, succeeds and gives [A; C]; opening [D] then gives [A; C; D],
    and the stacking value of [D] is [baseZIndex + 2], the same as that
    of [C]. *)
Theorem stacking_after_removal options cA cB cC cD A B C D pA pB pC pD :
  allowMultiple options = true →
  NoDup [A; B; C; D] →
  (∀ st c id p,
     modalsMap st !! id = None →
     stacking (open options c id st p) id =
       Some (baseZIndex options + Z.of_nat (length (modalQueue st)))%Z) ∧
  let st3 :=
    open options cC C (open options cB B (open options cA A init pA) pB) pC in
  let st4 := (close B st3).1 in
  let st5 := open options cD D st4 pD in
  modalQueue st3 = [A; B; C] ∧
  (close B st3).2 = Done true ∧
  modalQueue st4 = [A; C] ∧
  modalQueue st5 = [A; C; D] ∧
  stacking st5 C = Some (baseZIndex options + 2)%Z ∧
  stacking st5 D = Some (baseZIndex options + 2)%Z.
Proof.
  intros Hm Hnd.
  assert (A ≠ B ∧ A ≠ C ∧ A ≠ D ∧ B ≠ C ∧ B ≠ D ∧ C ≠ D)
    as (HAB & HAC & HAD & HBC & HBD & HCD).
  { revert Hnd. rewrite !NoDup_cons, !not_elem_of_cons. tauto. }
  split.
  { intros st c id p Hid. rewrite (open_fresh options c id st p) by done.
    unfold stacking, create. simpl. rewrite lookup_insert_eq. simpl.
    by rewrite list_lookup_middle. }
  cbv zeta. rewrite (open_fresh options cA A init pA) by done.
  set (s1 := create options cA A init pA).
  rewrite (open_fresh options cB B s1 pB)
    by (try done; simpl; by rewrite lookup_insert_ne).
  set (s2 := create options cB B s1 pB).
  rewrite (open_fresh options cC C s2 pC)
    by (try done; simpl; by rewrite !lookup_insert_ne).
  set (s3 := create options cC C s2 pC).
  assert (close B s3 =
            (State (alter (λ r, set_isClosing true (set_visible false r)) 1
                      (heap s3))
               (delete B (modalsMap s3)) [A; C] (tasks s3) (next_tid s3)
               (trace s3), Done true)) as Hclose.
  { unfold close. simpl. rewrite lookup_insert_ne, lookup_insert_eq by done.
    erewrite closeModal_no_guards; [|
      simpl; by rewrite lookup_insert_ne, lookup_insert_eq |
      reflexivity | done | done].
    simpl. by rewrite decide_False, decide_True. }
  rewrite Hclose. simpl fst. simpl snd.
  set (s4 := State _ _ _ _ _ _).
  rewrite (open_fresh options cD D s4 pD);
    [|done|simpl; by rewrite lookup_delete_ne, !lookup_insert_ne].
  split; [done|]. split; [done|]. split; [done|]. split; [done|].
  unfold stacking. simpl.
  rewrite lookup_insert_ne, lookup_delete_ne, lookup_insert_eq by done.
  rewrite lookup_insert_eq. simpl.
  done.
Qed.


(** C9, as the specification states it, fails: after opening 1, 2, 3,
    closing 2 and opening 4, the stacking value of 4 is not greater than
    that of 3. *)
Lemma stacking_not_increasing :
  let st :=
    run DEFAULT_OPTIONS
      [OpOpen 0 1 ∅; OpOpen 0 2 ∅; OpOpen 0 3 ∅; OpClose 2; OpOpen 0 4 ∅] in
  modalQueue st = [1; 3; 4] ∧
  ¬ (∃ zC zD, stacking st 3 = Some zC ∧ stacking st 4 = Some zD ∧
              (zC < zD)%Z).
Proof.
  intros st. split; [done|].
  intros (zC & zD & HC & HD & Hlt).
  vm_compute in HC, HD. simplify_eq. lia.
Qed.

(** ** C8: one modal at a time *)

(** C8 on the code.  With [allowMultiple = false] the eviction looks at
    the last entry of the queue only.  After a reopen during a close and
    the close of the reopened record, the entry of identity 1 that the
    reopen left behind is last in the queue [[2; 1]], while modal 2 is
    open, with one guard that allows.  Opening modal 3 then calls no
    guard and starts no negotiation, and modals 2 and 3 are both open. *)
Lemma eviction_skips_open_modal :
  let options := Options 1000 false false in
  let st :=
    run options
      [OpOpen 0 1 ∅;
       OpAddClosePromise 1 5 (Guard 7 (Promise (Fulfilled VTrue)));
       OpOpen 0 2 ∅;
       OpAddClosePromise 2 6 (Guard 8 (Promise (Fulfilled VFalse)));
       OpOpen 0 1 ∅; OpResume 1; OpResume 0;
       OpRemoveComponentPromises 2 6;
       OpAddClosePromise 2 6 (Guard 9 (Value VTrue));
       OpCloseModal 1] in
  let st' := open options 0 3 st ∅ in
  (modalQueue st = [2; 1] ∧
   modalsMap st !! 1 = None ∧ modalsMap st !! 2 = Some 1 ∧
   modalsMap st !! 3 = None ∧
   (closePromises <$> heap st !! 1) = Some [(6, [Guard 9 (Value VTrue)])] ∧
   isVisible 2 st = true ∧ closing_of st 2 = false ∧ tasks st = ∅) ∧
  (trace st' = trace st ∧ tasks st' = ∅ ∧
   isVisible 2 st' = true ∧ closing_of st' 2 = false ∧
   isVisible 3 st' = true ∧
   modalQueue st' = [2; 1; 3]).
Proof. by vm_compute. Qed.

(** ** The theorems at concrete inputs *)

Lemma guard_evaluation_order_witness :
  let st := run DEFAULT_OPTIONS [OpOpen 0 1 ∅] in
  let a1 := Guard 11 (Value VTrue) in
  let a2 := Guard 12 (Promise (Fulfilled VUndefined)) in
  let b1 := Guard 13 (Value VFalse) in
  let st1 :=
    addClosePromise (addClosePromise (addClosePromise st 1 5 a1) 1 5 a2)
      1 6 b1 in
  modalsMap st !! 1 = Some 0 ∧ 5 ≠ 6 ∧ allows a2 ∧ allows a1 ∧
  ∃ st2 b, closeModal_await st1 1 = (st2, Some b) ∧
           calls (trace st2) = calls (trace st1) ++ [12; 11; 13].
Proof.
  intros st a1 a2 b1 st1.
  assert (allows a2) as H2 by (by exists VUndefined).
  assert (allows a1) as H1 by (by exists VTrue).
  split; [reflexivity|]. split; [lia|]. split; [exact H2|].
  split; [exact H1|].
  destruct (guard_evaluation_order st 1 0 (ModalRecord 0 ∅ true (VStyle 1000) None [])
              5 6 a1 a2 b1) as (_ & Hcalls & _);
    [reflexivity|reflexivity|reflexivity|reflexivity|lia|].
  exact (Hcalls H2 H1).
Defined.

Lemma reopen_during_close_witness :
  let st :=
    run DEFAULT_OPTIONS
      [OpOpen 0 1 ∅; OpAddClosePromise 1 5 (Guard 8 (Value VTrue));
       OpCloseModal 1] in
  let st' := open DEFAULT_OPTIONS 0 1 st {["title" := VStr "again"]} in
  closing_of st 1 = true ∧
  modalsMap st' !! 1 = Some 1 ∧
  isVisible 1 st' = true ∧ closing_of st' 1 = false ∧
  modalQueue st' = [1; 1] ∧
  (settle st' 0).2 = Some false.
Proof.
  intros st st'.
  destruct (reopen_during_close DEFAULT_OPTIONS 0 1 st
              {["title" := VStr "again"]} 0
              (ModalRecord 0 ∅ false (VStyle 1000) (Some true)
                 [(5, [Guard 8 (Value VTrue)])]))
    as (H1 & _ & _ & _ & _ & H2 & H3 & H4 & H5 & _);
    [by eexists|reflexivity|reflexivity|reflexivity|].
  split; [reflexivity|]. split; [exact H1|]. split; [exact H2|].
  split; [exact H3|]. split; [exact H4|].
  exact (proj2 (H5 0 (Task 1 0 (Fulfilled VTrue) []) eq_refl eq_refl)).
Defined.

Lemma registry_records_live_witness :
  let ops :=
    [OpOpen 0 1 ∅; OpAddClosePromise 1 5 (Guard 7 (Value VFalse));
     OpClose 1; OpResume 0; OpOpen 0 1 {["visible" := VBool true]};
     OpOpen 0 2 ∅; OpClose 2] in
  Forall op_benign ops ∧
  (is_Some (modalsMap (run DEFAULT_OPTIONS ops) !! 1) ↔
     isVisible 1 (run DEFAULT_OPTIONS ops) = true ∨
     closing_of (run DEFAULT_OPTIONS ops) 1 = true).
Proof.
  intros ops.
  assert (Forall op_benign ops) as Hops.
  { repeat constructor; try discriminate.
    intros v Hv. vm_compute in Hv. congruence. }
  split; [exact Hops|].
  exact (registry_records_live DEFAULT_OPTIONS ops 1 Hops).
Defined.

Lemma guard_denial_halts_witness :
  let pre := Guard 21 (Value VUndefined) in
  let fn := Guard 22 (Promise (Fulfilled VFalse)) in
  let post := Guard 23 (Value VTrue) in
  let st :=
    run DEFAULT_OPTIONS
      [OpOpen 0 1 ∅; OpAddClosePromise 1 5 post; OpAddClosePromise 1 5 fn;
       OpAddClosePromise 1 5 pre] in
  Forall allows [pre] ∧ denies fn ∧
  ∃ st', closeModal_await st 1 = (st', Some false) ∧
         trace st' = trace st ++ invocations ([pre] ++ [fn]) ∧
         modalsMap st' = modalsMap st ∧
         modalQueue st' = modalQueue st ∧
         (∃ r', heap st' !! 0 = Some r' ∧
                isClosing r' = Some false ∧ visible r' = true) ∧
         isVisible 1 st' = true.
Proof.
  intros pre fn post st.
  assert (Forall allows [pre]) as Hpre.
  { constructor; [by exists VUndefined|constructor]. }
  split; [exact Hpre|]. split; [reflexivity|].
  apply (guard_denial_halts st 1 0
           (ModalRecord 0 ∅ true (VStyle 1000) None [(5, [pre; fn; post])])
           [pre] fn [post]);
    [reflexivity|reflexivity|reflexivity|reflexivity|exact Hpre|reflexivity].
Defined.

Lemma guard_error_caught_witness :
  let pre := Guard 21 (Value VUndefined) in
  let fn := Guard 22 (Promise Rejected) in
  let post := Guard 23 (Value VTrue) in
  let st :=
    run DEFAULT_OPTIONS
      [OpOpen 0 1 ∅; OpAddClosePromise 1 5 post; OpAddClosePromise 1 5 fn;
       OpAddClosePromise 1 5 pre] in
  Forall allows [pre] ∧ fails fn ∧
  ∃ st', closeModal_await st 1 = (st', Some false) ∧
         trace st' =
           trace st ++ invocations ([pre] ++ [fn]) ++ [ConsoleError] ∧
         modalsMap st' = modalsMap st ∧
         modalQueue st' = modalQueue st ∧
         (∃ r', heap st' !! 0 = Some r' ∧
                isClosing r' = Some false ∧ visible r' = false) ∧
         isVisible 1 st' = false.
Proof.
  intros pre fn post st.
  assert (Forall allows [pre]) as Hpre.
  { constructor; [by exists VUndefined|constructor]. }
  assert (fails fn) as Hfn by (right; reflexivity).
  split; [exact Hpre|]. split; [exact Hfn|].
  apply (guard_error_caught st 1 0
           (ModalRecord 0 ∅ true (VStyle 1000) None [(5, [pre; fn; post])])
           [pre] fn [post]);
    [reflexivity|reflexivity|reflexivity|reflexivity|exact Hpre|exact Hfn].
Defined.

Lemma closeModal_idempotent_witness :
  let st0 := run DEFAULT_OPTIONS [OpOpen 0 1 ∅] in
  let st := (closeModal_await st0 1).1 in
  modalsMap st !! 1 = None ∧
  closeModal_await st0 1 = (st, Some true) ∧
  closeModal st 1 = (st, Done false) ∧
  close 1 st = (st, Done false).
Proof.
  intros st0 st.
  assert (modalsMap st !! 1 = None) as Hno by reflexivity.
  assert (closeModal_await st0 1 = (st, Some true)) as Hrun by reflexivity.
  split; [exact Hno|]. split; [exact Hrun|].
  destruct (closeModal_idempotent st 1) as [Hnoop Hagain].
  split; [exact (Hnoop (or_introl Hno))|exact (Hagain st0 Hrun)].
Defined.

Lemma stacking_after_removal_witness :
  let st3 :=
    open DEFAULT_OPTIONS 0 3
      (open DEFAULT_OPTIONS 0 2 (open DEFAULT_OPTIONS 0 1 init ∅) ∅) ∅ in
  let st5 := open DEFAULT_OPTIONS 0 4 (close 2 st3).1 ∅ in
  NoDup [1; 2; 3; 4] ∧
  modalQueue st5 = [1; 3; 4] ∧
  stacking st5 3 = Some 1002%Z ∧ stacking st5 4 = Some 1002%Z.
Proof.
  intros st3 st5.
  assert (NoDup [1; 2; 3; 4]) as Hnd.
  { repeat constructor; rewrite ?elem_of_cons, ?elem_of_nil; lia. }
  destruct (stacking_after_removal DEFAULT_OPTIONS 0 0 0 0 1 2 3 4 ∅ ∅ ∅ ∅
              eq_refl Hnd) as (_ & _ & _ & _ & Hq & HC & HD).
  split; [exact Hnd|]. split; [exact Hq|]. split; [exact HC|exact HD].
Defined.

Lemma reopen_leaves_stale_queue_entry_witness :
  let st :=
    run DEFAULT_OPTIONS
      [OpOpen 0 1 ∅; OpOpen 0 2 ∅;
       OpAddClosePromise 1 5 (Guard 8 (Value VTrue)); OpCloseModal 1] in
  let st' := open DEFAULT_OPTIONS 0 1 st ∅ in
  closing_of st 1 = true ∧
  modalQueue st = [1; 2] ∧
  modalQueue st' = [1; 2; 1] ∧
  ∃ st'', closeModal_await st' 1 = (st'', Some true) ∧
          modalsMap st'' !! 1 = None ∧
          modalQueue st'' = [2; 1].
Proof.
  intros st st'.
  destruct (reopen_leaves_stale_queue_entry DEFAULT_OPTIONS 0 1 st ∅ 0
              (ModalRecord 0 ∅ false (VStyle 1000) (Some true)
                 [(5, [Guard 8 (Value VTrue)])]))
    as (_ & _ & _ & pre & post & Hsplit & Hpre & Hq & _ & st'' & Hrun &
        Hgone & Hq'' & _);
    [by eexists|reflexivity|reflexivity|reflexivity|].
  change (modalQueue (evict DEFAULT_OPTIONS st)) with [1; 2] in Hsplit.
  destruct pre as [|x pre].
  - injection Hsplit as <-.
    split; [reflexivity|]. split; [reflexivity|]. split; [exact Hq|].
    exists st''. auto.
  - injection Hsplit as <- _. exfalso. apply Hpre. left.
Defined.

(** * Further properties of core.ts *)

(** ** The registry and the queue *)

(** X1.  In every reachable state an identity that has a record in the
    registry is in the open queue, and its record object is allocated. *)
Theorem registered_in_queue options st id a :
  reachable options st →
  modalsMap st !! id = Some a →
  id ∈ modalQueue st ∧ is_Some (heap st !! a).
Proof.
  intros (Halloc & _ & Hq)%reachable_wf Hid. split; [by eapply Hq|].
  apply lookup_lt_is_Some. by eapply Halloc.
Qed.

Lemma registered_in_queue_witness :
  let st := run DEFAULT_OPTIONS [OpOpen 0 1 ∅; OpOpen 0 2 ∅; OpClose 1] in
  modalsMap st !! 2 = Some 1 ∧ 2 ∈ modalQueue st ∧ is_Some (heap st !! 1).
Proof.
  intros st. split; [reflexivity|].
  apply (registered_in_queue DEFAULT_OPTIONS st 2 1); [by eexists|reflexivity].
Defined.

(** ** [open] on a record that is open *)

(** X2.  With [allowMultiple = true], [open] on an identity whose record
    is not closing only merges the props: every key of the call
    overrides, [visible] and [style] as any other, and the keys the call
    does not carry stay.  The component, [isClosing] and the guards of
    the record, the other records, the registry, the queue, the parked
    negotiations and the trace are unchanged; so is what [isVisible]
    returns unless the call carries [visible].  Doing it twice is doing
    it once. *)
Theorem open_merges_props options c id st p a r :
  allowMultiple options = true →
  modalsMap st !! id = Some a →
  heap st !! a = Some r →
  closing r = false →
  let st' := open options c id st p in
  heap st' !! a =
    Some (ModalRecord (comp r) (other_props p ∪ props r)
            (default (visible r) (p !! "visible"))
            (default (style r) (p !! "style"))
            (isClosing r) (closePromises r)) ∧
  (∀ k, k ≠ "visible" → k ≠ "style" →
        (other_props p ∪ props r) !! k =
          match p !! k with Some v => Some v | None => props r !! k end) ∧
  (∀ b, b ≠ a → heap st' !! b = heap st !! b) ∧
  length (heap st') = length (heap st) ∧
  modalsMap st' = modalsMap st ∧ modalQueue st' = modalQueue st ∧
  tasks st' = tasks st ∧ trace st' = trace st ∧
  isVisible id st' = default (isVisible id st) (p !! "visible") ∧
  open options c id st' p = st'.
Proof.
  intros Hm Hid Ha Hc st'.
  assert (∀ s x, modalsMap s !! id = Some a → heap s !! a = Some x →
                 closing x = false →
                 open options c id s p = update a (assign_props p) s) as Hopen.
  { intros s x Hs Hx Hcx. unfold open, evict. rewrite Hm. simpl.
    rewrite Hs, (closing_at_update _ _ _ x) by done.
    change (closing (assign_props p x)) with (closing x). by rewrite Hcx. }
  assert (heap st' !! a = Some (assign_props p r)) as Ha'.
  { unfold st'. rewrite (Hopen st r) by done.
    rewrite lookup_update, decide_True by done. by rewrite Ha. }
  unfold st' in *. rewrite (Hopen st r) in * by done.
  split; [exact Ha'|]. split.
  { intros k Hv Hs. rewrite lookup_union, other_props_lookup by done.
    by destruct (p !! k), (props r !! k). }
  split; [intros b Hb; by rewrite lookup_update, decide_False|].
  split; [apply length_alter|]. do 4 (split; [done|]). split.
  { unfold isVisible. simpl modalsMap. by rewrite Hid, Ha', Ha. }
  rewrite (Hopen _ (assign_props p r)) by done.
  unfold update, with_heap. simpl. f_equal.
  rewrite list_alter_alter_eq. apply list_alter_ext; [|done].
  intros x _. unfold assign_props. simpl. f_equal.
  - by rewrite (assoc_L (∪)), (idemp_L (∪)).
  - by destruct (p !! "visible").
  - by destruct (p !! "style").
Qed.

Lemma open_merges_props_witness :
  let st :=
    run DEFAULT_OPTIONS [OpOpen 7 1 {["title" := VStr "a"; "n" := VNum 1]}] in
  let p := {["title" := VStr "b"; "visible" := VBool false]} in
  let st' := open DEFAULT_OPTIONS 8 1 st p in
  modalsMap st !! 1 = Some 0 ∧
  isVisible 1 st = true ∧
  heap st' !! 0 =
    Some (ModalRecord 7 {["title" := VStr "b"; "n" := VNum 1]} false
            (VStyle 1000) None []) ∧
  isVisible 1 st' = false ∧
  modalQueue st' = [1].
Proof.
  intros st p st'.
  destruct (open_merges_props DEFAULT_OPTIONS 8 1 st p 0
              (ModalRecord 7 {["title" := VStr "a"; "n" := VNum 1]} true
                 (VStyle 1000) None []))
    as (Hrec & _ & _ & _ & _ & Hq & _ & _ & Hv & _);
    [reflexivity|reflexivity|reflexivity|reflexivity|].
  split; [reflexivity|]. split; [reflexivity|].
  split; [exact Hrec|]. split; [exact Hv|exact Hq].
Defined.

(** X3.  From any reachable state, [open] returns with a record registered
    for the identity, the identity in the queue, and every prop of the
    call other than [visible] and [style] in the record with the value of
    the call.  (The two other props are as the call has them when [open]
    merges, and set by [open] itself when it creates the record; the
    record need not be visible: see [open_merges_props] and
    [single_mode_reopen_stays_hidden].) *)
Theorem open_registers options c id st p :
  reachable options st →
  let st' := open options c id st p in
  ∃ a r, modalsMap st' !! id = Some a ∧ heap st' !! a = Some r ∧
         (∀ k v, k ≠ "visible" → k ≠ "style" →
                 p !! k = Some v → props r !! k = Some v) ∧
         id ∈ modalQueue st'.
Proof.
  intros Hwf%reachable_wf st'.
  assert (wf st') as (_ & _ & Hq') by (by apply wf_open).
  pose proof (wf_evict options st Hwf) as (Halloc & _ & _).
  assert (∃ a r, modalsMap st' !! id = Some a ∧ heap st' !! a = Some r ∧
                 other_props p ⊆ props r) as (a & r & Hid & Ha & Hp).
  { unfold st', open.
    destruct (modalsMap (evict options st) !! id) as [a|] eqn:Hid.
    - destruct (lookup_lt_is_Some_2 (heap (evict options st)) a) as [r Ha];
        [by eapply Halloc|].
      rewrite (closing_at_update _ _ _ r) by done.
      change (closing (assign_props p r)) with (closing r).
      destruct (closing r); simpl.
      + eexists _, _. split; [apply lookup_insert_eq|].
        split; [apply list_lookup_middle; by rewrite !length_alter|done].
      + exists a, (assign_props p r). split; [done|]. split.
        * rewrite list_lookup_alter_eq. by rewrite Ha.
        * apply map_union_subseteq_l.
    - unfold create. simpl. eexists _, _. split; [apply lookup_insert_eq|].
      split; [by apply list_lookup_middle|done]. }
  exists a, r. split; [done|]. split; [done|]. split; [|by eapply Hq'].
  intros k v Hv Hs Hk. eapply lookup_weaken; [|exact Hp].
  by rewrite other_props_lookup.
Qed.

Lemma open_registers_witness :
  let st :=
    run (Options 1000 false false)
      [OpOpen 0 1 ∅; OpAddClosePromise 1 5 (Guard 9 Throw)] in
  let st' := open (Options 1000 false false) 0 1 st {["k" := VNum 2]} in
  isVisible 1 st' = false ∧
  ∃ a r, modalsMap st' !! 1 = Some a ∧ heap st' !! a = Some r ∧
         (∀ k v, k ≠ "visible" → k ≠ "style" →
                 ({["k" := VNum 2]} : gmap string value) !! k = Some v →
                 props r !! k = Some v) ∧
         1 ∈ modalQueue st'.
Proof.
  intros st st'. split; [reflexivity|].
  apply (open_registers (Options 1000 false false) 0 1 st). by eexists.
Defined.

(** ** [open] with [allowMultiple = false] on the modal on top *)

(** X4.  With [allowMultiple = false], [open] on the identity that is
    last in the queue (and nowhere else in it) and whose record is open
    without guards closes that record and creates a new one: the props
    of the old record are dropped, not merged, the new record carries the
    component and the props of this call, with [visible] and [style] set
    by [open], and the queue is as before. *)
Theorem single_mode_reopen_replaces options c id st p q a r :
  allowMultiple options = false →
  modalQueue st = q ++ [id] →
  id ∉ q →
  modalsMap st !! id = Some a →
  heap st !! a = Some r →
  closing r = false →
  closePromises r = [] →
  let st' := open options c id st p in
  modalsMap st' !! id = Some (length (heap st)) ∧
  heap st' !! length (heap st) =
    Some (ModalRecord c (other_props p) true
            (VStyle (baseZIndex options + Z.of_nat (length q))) None []) ∧
  modalQueue st' = q ++ [id] ∧
  tasks st' = tasks st ∧ trace st' = trace st.
Proof.
  intros Hm Hq Hnin Hid Ha Hc Hcp st'.
  assert (evict options st =
            State (alter (λ r, set_isClosing true (set_visible false r)) a
                     (heap st))
              (delete id (modalsMap st)) q (tasks st) (next_tid st)
              (trace st)) as Hev.
  { unfold evict. rewrite Hm, Hq, last_snoc, length_app. simpl.
    rewrite bool_decide_eq_true_2 by lia. simpl. rewrite Hid.
    rewrite (closeModal_no_guards st id a r) by done. simpl.
    rewrite Hq. f_equal. clear Hq.
    induction q as [|x q IH]; simpl; [by rewrite decide_True|].
    apply not_elem_of_cons in Hnin as [Hx Hnin].
    rewrite decide_False by done. f_equal. by apply IH. }
  unfold st', open. rewrite Hev. simpl. rewrite lookup_delete_eq.
  unfold create. simpl. rewrite length_alter.
  split; [apply lookup_insert_eq|].
  split; [apply list_lookup_middle; by rewrite length_alter|done].
Qed.

Lemma single_mode_reopen_replaces_witness :
  let options := Options 1000 false false in
  let st := run options [OpOpen 7 1 {["title" := VStr "old"]}] in
  let st' := open options 8 1 st {["n" := VNum 1]} in
  modalQueue st = [] ++ [1] ∧
  heap st' !! 1 =
    Some (ModalRecord 8 {["n" := VNum 1]} true (VStyle 1000) None []) ∧
  modalQueue st' = [1].
Proof.
  intros options st st'.
  destruct (single_mode_reopen_replaces options 8 1 st {["n" := VNum 1]} [] 0
              (ModalRecord 7 {["title" := VStr "old"]} true (VStyle 1000)
                 None []))
    as (_ & Hrec & Hq & _);
    [reflexivity|reflexivity|by intros ?%elem_of_nil|reflexivity|reflexivity
    |reflexivity|reflexivity|].
  split; [reflexivity|]. split; [exact Hrec|exact Hq].
Defined.

(** X5.  With [allowMultiple = false], [open] on the identity that is
    last in the queue and whose first guard throws returns with the
    record hidden, unless the call itself carries [visible]: the eviction
    runs [closeModal] on the record itself, the [catch] block leaves it
    with [visible = false] and [isClosing = false], and [open] then only
    merges the props of the call. *)
Theorem single_mode_reopen_stays_hidden options c id st p q a r fn rest :
  allowMultiple options = false →
  modalQueue st = q ++ [id] →
  modalsMap st !! id = Some a →
  heap st !! a = Some r →
  closing r = false →
  all_fns (closePromises r) = fn :: rest →
  gcall fn = Throw →
  let st' := open options c id st p in
  modalsMap st' = modalsMap st ∧ modalQueue st' = modalQueue st ∧
  heap st' !! a =
    Some (ModalRecord (comp r) (other_props p ∪ props r)
            (default (VBool false) (p !! "visible"))
            (default (style r) (p !! "style"))
            (Some false) (closePromises r)) ∧
  isVisible id st' = default (VBool false) (p !! "visible") ∧
  trace st' = trace st ++ [Invoked (gname fn); ConsoleError].
Proof.
  intros Hm Hq Hid Ha Hc Hfns Hthrow st'.
  assert (evict options st =
            update a (set_isClosing false)
              (emit ConsoleError (emit (Invoked (gname fn))
                 (update a (λ r, set_isClosing true (set_visible false r))
                    st)))) as Hev.
  { unfold evict. rewrite Hm, Hq, last_snoc, length_app. simpl.
    rewrite bool_decide_eq_true_2 by lia. simpl. rewrite Hid.
    unfold closeModal. rewrite Hid, Ha, Hc, Hfns. simpl.
    by rewrite Hthrow. }
  assert (heap (evict options st) !! a =
            Some (set_isClosing false
                    (set_isClosing true (set_visible false r)))) as Ha1.
  { rewrite Hev. simpl. by rewrite !list_lookup_alter_eq, Ha. }
  assert (st' = update a (assign_props p) (evict options st)) as Hst'.
  { unfold st', open.
    assert (modalsMap (evict options st) !! id = Some a) as ->
      by (by rewrite Hev).
    by rewrite (closing_at_update _ _ _ _ Ha1). }
  assert (heap st' !! a =
    Some (ModalRecord (comp r) (other_props p ∪ props r)
            (default (VBool false) (p !! "visible"))
            (default (style r) (p !! "style"))
            (Some false) (closePromises r))) as Ha'.
  { rewrite Hst', lookup_update, decide_True by done. by rewrite Ha1. }
  split; [by rewrite Hst', Hev|]. split; [by rewrite Hst', Hev|].
  split; [exact Ha'|]. split.
  - unfold isVisible.
    assert (modalsMap st' !! id = Some a) as -> by (by rewrite Hst', Hev).
    by rewrite Ha'.
  - rewrite Hst', Hev. simpl. by rewrite <- app_assoc.
Qed.

Lemma single_mode_reopen_stays_hidden_witness :
  let options := Options 1000 false false in
  let st := run options [OpOpen 0 1 ∅; OpAddClosePromise 1 5 (Guard 9 Throw)] in
  let st' := open options 0 1 st ∅ in
  modalQueue st = [] ++ [1] ∧ isVisible 1 st = true ∧
  isVisible 1 st' = false ∧
  trace st' = trace st ++ [Invoked 9; ConsoleError].
Proof.
  intros options st st'.
  destruct (single_mode_reopen_stays_hidden options 0 1 st ∅ [] 0
              (ModalRecord 0 ∅ true (VStyle 1000) None [(5, [Guard 9 Throw])])
              (Guard 9 Throw) [])
    as (_ & _ & _ & Hv & Htr);
    [reflexivity|reflexivity|reflexivity|reflexivity|reflexivity|reflexivity
    |reflexivity|].
  split; [reflexivity|]. split; [reflexivity|]. split; [exact Hv|exact Htr].
Defined.

(** ** Opening and closing *)

(** X6.  With [allowMultiple = true], [open] on an identity that is
    neither registered nor in the queue followed by an uninterrupted
    [closeModal] gives back the registry and the queue as they were; the
    close resolves to [true] and calls no guard, and the parked
    negotiations are untouched. *)
Theorem open_close_round_trip options c id st p :
  allowMultiple options = true →
  modalsMap st !! id = None →
  id ∉ modalQueue st →
  ∃ st',
    closeModal_await (open options c id st p) id = (st', Some true) ∧
    modalsMap st' = modalsMap st ∧ modalQueue st' = modalQueue st ∧
    tasks st' = tasks st ∧ trace st' = trace st.
Proof.
  intros Hm Hid Hnin. rewrite (open_fresh options c id st p) by done.
  unfold closeModal_await.
  erewrite closeModal_no_guards;
    [|simpl; apply lookup_insert_eq|simpl; by apply list_lookup_middle
     |done|done].
  eexists. split; [reflexivity|]. simpl.
  split; [by apply delete_insert_id|]. split; [|done].
  clear Hid. induction (modalQueue st) as [|x q IH]; simpl;
    [by rewrite decide_True|].
  apply not_elem_of_cons in Hnin as [Hx Hnin].
  rewrite decide_False by done. f_equal. by apply IH.
Qed.

Lemma open_close_round_trip_witness :
  let st := run DEFAULT_OPTIONS [OpOpen 0 1 ∅] in
  modalsMap st !! 2 = None ∧ (2 ∉ modalQueue st) ∧
  ∃ st',
    closeModal_await (open DEFAULT_OPTIONS 0 2 st ∅) 2 = (st', Some true) ∧
    modalsMap st' = modalsMap st ∧ modalQueue st' = modalQueue st ∧
    tasks st' = tasks st ∧ trace st' = trace st.
Proof.
  intros st.
  assert (2 ∉ modalQueue st) as Hnin.
  { change (modalQueue st) with [1].
    rewrite elem_of_cons, elem_of_nil. lia. }
  split; [reflexivity|]. split; [exact Hnin|].
  apply (open_close_round_trip DEFAULT_OPTIONS 0 2 st ∅);
    [reflexivity|reflexivity|exact Hnin].
Defined.

(** ** Guards registered or removed while a negotiation is parked *)

Lemma closing_at_update_any st a f b :
  closing_at (update a f st) b =
    if decide (a = b)
    then match heap st !! a with Some r => closing (f r) | None => false end
    else closing_at st b.
Proof.
  unfold closing_at. rewrite lookup_update. case_decide; [|done].
  by destruct (heap st !! a).
Qed.

Lemma same_negotiations_refl st : same_negotiations st st.
Proof. by repeat split. Qed.

(** Two updates of the same record that agree on [isClosing]. *)
Lemma same_negotiations_update st1 st2 a f g :
  same_negotiations st1 st2 →
  ((∀ r, closing (f r) = false) ∧ (∀ r, closing (g r) = false) ∨
   (∀ r, closing (f r) = closing r) ∧ (∀ r, closing (g r) = closing r)) →
  same_negotiations (update a f st1) (update a g st2).
Proof.
  intros (Ht & Hn & Htr & Hm & Hq & Hc) Hfg. repeat split; try done.
  intros b. rewrite !closing_at_update_any. case_decide; [subst b|done].
  specialize (Hc a). unfold closing_at in Hc.
  destruct Hfg as [[Hf Hg]|[Hf Hg]];
    destruct (heap st1 !! a), (heap st2 !! a);
    rewrite ?Hf, ?Hg; try done; by rewrite <- ?Hc, ?Hc.
Qed.

Lemma same_negotiations_hooks st a f :
  (∀ r, closing (f r) = closing r) → same_negotiations (update a f st) st.
Proof.
  intros Hf. repeat split; try done.
  intros b. rewrite closing_at_update_any. case_decide; [subst b|done].
  unfold closing_at. destruct (heap st !! a); by rewrite ?Hf.
Qed.

Lemma same_negotiations_next_guard st1 st2 tid id a fns :
  same_negotiations st1 st2 →
  (next_guard st1 tid id a fns).2 = (next_guard st2 tid id a fns).2 ∧
  same_negotiations (next_guard st1 tid id a fns).1
    (next_guard st2 tid id a fns).1.
Proof.
  intros Hsame. pose proof Hsame as (Ht & Hn & Htr & Hm & Hq & Hc).
  destruct fns as [|fn rest]; simpl.
  - unfold finish. rewrite (Hc a). destruct (closing_at st2 a); simpl.
    + split; [done|]. repeat split; simpl; by rewrite ?Hm, ?Hq.
    + done.
  - destruct (awaited (gcall fn)); simpl.
    + split; [done|]. repeat split; simpl; by rewrite ?Ht, ?Hn, ?Htr.
    + split; [done|]. apply same_negotiations_update; [|by left].
      repeat split; simpl; by rewrite ?Htr.
Qed.

Lemma same_negotiations_resume st1 st2 tid :
  same_negotiations st1 st2 →
  match resume st1 tid, resume st2 tid with
  | Some (s1, c1), Some (s2, c2) => c1 = c2 ∧ same_negotiations s1 s2
  | None, None => True
  | _, _ => False
  end.
Proof.
  intros Hsame. pose proof Hsame as (Ht & Hn & Htr & Hm & Hq & Hc).
  unfold resume. rewrite Ht. destruct (tasks st2 !! tid) as [t|]; [|done].
  assert (same_negotiations
            (State (heap st1) (modalsMap st1) (modalQueue st1)
               (delete tid (tasks st2)) (next_tid st1) (trace st1))
            (State (heap st2) (modalsMap st2) (modalQueue st2)
               (delete tid (tasks st2)) (next_tid st2) (trace st2))) as H0.
  { repeat split; simpl; try done. }
  assert (∀ s1 s2, same_negotiations s1 s2 →
            (on_error s1 (t_modal t)).2 = (on_error s2 (t_modal t)).2 ∧
            same_negotiations (on_error s1 (t_modal t)).1
              (on_error s2 (t_modal t)).1) as Herr.
  { intros s1 s2 (? & ? & Htr' & ? & ? & ?). split; [done|].
    apply same_negotiations_update; [|by left].
    repeat split; simpl; by rewrite ?Htr'. }
  assert (∀ s1 s2, same_negotiations s1 s2 →
            (on_deny s1 (t_modal t)).2 = (on_deny s2 (t_modal t)).2 ∧
            same_negotiations (on_deny s1 (t_modal t)).1
              (on_deny s2 (t_modal t)).1) as Hdeny.
  { intros s1 s2 Hs. split; [done|].
    apply same_negotiations_update; [done|by left]. }
  destruct (t_await t) as [[]|].
  - pose proof (same_negotiations_next_guard _ _ tid (t_id t) (t_modal t)
                  (t_rest t) H0) as [Hc' Hs'].
    by destruct (next_guard _ _ _ _ _), (next_guard _ _ _ _ _).
  - destruct (Hdeny _ _ H0). by destruct (on_deny _ _), (on_deny _ _).
  - pose proof (same_negotiations_next_guard _ _ tid (t_id t) (t_modal t)
                  (t_rest t) H0) as [Hc' Hs'].
    by destruct (next_guard _ _ _ _ _), (next_guard _ _ _ _ _).
  - destruct (Herr _ _ H0). by destruct (on_error _ _), (on_error _ _).
Qed.

Lemma same_negotiations_drive fuel :
  ∀ st1 st2 tid,
    same_negotiations st1 st2 →
    (drive fuel st1 tid).2 = (drive fuel st2 tid).2 ∧
    same_negotiations (drive fuel st1 tid).1 (drive fuel st2 tid).1.
Proof.
  induction fuel as [|fuel IH]; intros st1 st2 tid Hsame; [done|].
  simpl. pose proof (same_negotiations_resume st1 st2 tid Hsame) as Hres.
  destruct (resume st1 tid) as [[s1 c1]|], (resume st2 tid) as [[s2 c2]|];
    try done.
  destruct Hres as [<- Hs]. destruct c1; [done|]. by apply IH.
Qed.

(** X7.  A negotiation walks through the snapshot of the guards taken
    when [closeModal] started.  Registering a guard or removing the
    guards of an owner while it is parked changes neither the guards it
    goes on to call nor what it resolves to: a guard removed by then is
    still called, a guard added by then is not. *)
Theorem parked_negotiation_ignores_registration st modalId componentId fn
    tid fuel :
  let added := addClosePromise st modalId componentId fn in
  let removed := removeComponentPromises st modalId componentId in
  (drive fuel added tid).2 = (drive fuel st tid).2 ∧
  trace (drive fuel added tid).1 = trace (drive fuel st tid).1 ∧
  (drive fuel removed tid).2 = (drive fuel st tid).2 ∧
  trace (drive fuel removed tid).1 = trace (drive fuel st tid).1.
Proof.
  intros added removed.
  assert (same_negotiations added st) as Hadd.
  { unfold added, addClosePromise. destruct (modalsMap st !! modalId);
      [|apply same_negotiations_refl].
    by apply same_negotiations_hooks. }
  assert (same_negotiations removed st) as Hrem.
  { unfold removed, removeComponentPromises.
    destruct (modalsMap st !! modalId); [|apply same_negotiations_refl].
    by apply same_negotiations_hooks. }
  destruct (same_negotiations_drive fuel added st tid Hadd)
    as (? & _ & _ & ? & _).
  destruct (same_negotiations_drive fuel removed st tid Hrem)
    as (? & _ & _ & ? & _).
  done.
Qed.

(** ** Removing the guards of an owner *)

Lemma cp_delete_filter m c :
  cp_delete m c = filter (λ kv, kv.1 ≠ c) m.
Proof.
  induction m as [|[k w] m IH]; [done|]. simpl. rewrite filter_cons. simpl.
  case_decide; case_decide; try done; by rewrite IH.
Qed.

Lemma cp_get_cp_delete m c c' :
  cp_get (cp_delete m c) c' = if decide (c' = c) then None else cp_get m c'.
Proof.
  induction m as [|[k w] m IH]; simpl; [by case_decide|].
  repeat (case_decide; simpl); subst; try done; rewrite IH;
    by rewrite ?decide_True, ?decide_False by done.
Qed.

(** X8.  After [removeComponentPromises] for an owner, that owner has no
    guards left on the modal and the guards of every other owner are as
    before; an uninterrupted [closeModal] then goes through the guards of
    the other owners only, in their former order. *)
Theorem removed_guards_are_not_called st id componentId a r :
  modalsMap st !! id = Some a →
  heap st !! a = Some r →
  closing r = false →
  let st1 := removeComponentPromises st id componentId in
  let others :=
    all_fns (filter (λ kv, kv.1 ≠ componentId) (closePromises r)) in
  ∃ r1 st' b,
    heap st1 !! a = Some r1 ∧
    cp_get (closePromises r1) componentId = None ∧
    (∀ c, c ≠ componentId →
          cp_get (closePromises r1) c = cp_get (closePromises r) c) ∧
    closeModal_await st1 id = (st', Some b) ∧
    calls (trace st') = calls (trace st) ++ (gname <$> (evaluate others).1).
Proof.
  intros Hid Ha Hc st1 others.
  assert (heap st1 !! a =
            Some (set_closePromises (cp_delete (closePromises r) componentId)
                    r)) as Ha1.
  { unfold st1, removeComponentPromises. rewrite Hid, lookup_update.
    rewrite decide_True by done. by rewrite Ha. }
  assert (modalsMap st1 !! id = Some a) as Hid1.
  { unfold st1, removeComponentPromises. by rewrite Hid. }
  destruct (closeModal_await_spec st1 id a _ Hid1 Ha1 Hc)
    as (st' & Hrun & Htr & _).
  simpl in Hrun, Htr. rewrite cp_delete_filter in Hrun, Htr. fold others in Htr.
  eexists _, st', _. split; [exact Ha1|]. simpl.
  split; [by rewrite cp_get_cp_delete, decide_True|].
  split; [intros c Hne; by rewrite cp_get_cp_delete, decide_False|].
  split; [exact Hrun|].
  rewrite Htr, !calls_app, calls_invocations, calls_report, app_nil_r.
  f_equal. unfold st1, removeComponentPromises. by rewrite Hid.
Qed.

Lemma removed_guards_are_not_called_witness :
  let st :=
    run DEFAULT_OPTIONS
      [OpOpen 0 1 ∅; OpAddClosePromise 1 5 (Guard 21 (Value VFalse));
       OpAddClosePromise 1 6 (Guard 22 (Value VTrue))] in
  let st1 := removeComponentPromises st 1 5 in
  modalsMap st !! 1 = Some 0 ∧
  ∃ r1 st' b,
    heap st1 !! 0 = Some r1 ∧
    cp_get (closePromises r1) 5 = None ∧
    (∀ c, c ≠ 5 → cp_get (closePromises r1) c =
                  cp_get [(5, [Guard 21 (Value VFalse)]);
                          (6, [Guard 22 (Value VTrue)])] c) ∧
    closeModal_await st1 1 = (st', Some b) ∧
    calls (trace st') = calls (trace st) ++ [22].
Proof.
  intros st st1. split; [reflexivity|].
  apply (removed_guards_are_not_called st 1 5 0
           (ModalRecord 0 ∅ true (VStyle 1000) None
              [(5, [Guard 21 (Value VFalse)]); (6, [Guard 22 (Value VTrue)])]));
    reflexivity.
Defined.

(** ** [onBeforeClose] *)

Lemma cp_set_fresh m c v : cp_get m c = None → cp_set m c v = m ++ [(c, v)].
Proof.
  induction m as [|[k w] m IH]; [done|]. simpl.
  case_decide; [done|]. intros Hget. by rewrite IH.
Qed.

Lemma cp_delete_fresh m c v :
  cp_get m c = None → cp_delete (m ++ [(c, v)]) c = m.
Proof.
  induction m as [|[k w] m IH]; simpl; [by rewrite decide_True|].
  case_decide; [done|]. intros Hget. by rewrite IH.
Qed.

Lemma cp_get_snoc_ne m c v c' :
  c' ≠ c → cp_get (m ++ [(c, v)]) c' = cp_get m c'.
Proof.
  intros Hne. induction m as [|[k w] m IH]; simpl.
  - by rewrite decide_False.
  - by case_decide.
Qed.

Lemma all_fns_snoc m c v : all_fns (m ++ [(c, v)]) = all_fns m ++ v.
Proof.
  unfold all_fns. rewrite fmap_app, concat_app. simpl. by rewrite app_nil_r.
Qed.

(** X9.  [onBeforeClose] called in a component inside a mounted modal
    puts the guard under the freshly minted symbol at the end of the
    guard map of that modal, so that it is evaluated after every guard
    registered before it; when the component is unmounted the hook
    removes it again and the state is exactly what it was. *)
Theorem onBeforeClose_unmounted_round_trip env fnId fn st modalId a r :
  currentInstance env = true →
  injectedContext env = true →
  injectedModalId env = Some modalId →
  modalsMap st !! modalId = Some a →
  heap st !! a = Some r →
  cp_get (closePromises r) fnId = None →
  let st1 := (onBeforeClose env fnId fn st).1 in
  let reg := (onBeforeClose env fnId fn st).2 in
  reg = Hooked modalId fnId ∧
  heap st1 !! a =
    Some (set_closePromises (closePromises r ++ [(fnId, [fn])]) r) ∧
  all_fns (closePromises r ++ [(fnId, [fn])]) =
    all_fns (closePromises r) ++ [fn] ∧
  unmounted reg st1 = st.
Proof.
  intros Hinst Hctx Hmid Hid Ha Hfresh st1 reg.
  unfold st1, reg, onBeforeClose. rewrite Hinst, Hctx, Hmid. simpl.
  rewrite (addClosePromise_spec st modalId fnId fn a r) by done.
  rewrite Hfresh. simpl. rewrite (cp_set_fresh _ _ _ Hfresh).
  set (r1 := set_closePromises (closePromises r ++ [(fnId, [fn])]) r).
  assert ((<[a := r1]> (heap st)) !! a = Some r1) as Ha1.
  { apply list_lookup_insert_eq. by eapply lookup_lt_Some. }
  split; [done|]. split; [exact Ha1|].
  split; [apply all_fns_snoc|].
  unfold removeComponentPromises. simpl. rewrite Hid.
  unfold update, with_heap. simpl.
  rewrite (alter_insert _ _ _ r1 Ha1), list_insert_insert_eq. simpl.
  rewrite (cp_delete_fresh _ _ _ Hfresh).
  rewrite list_insert_id; [by destruct st|]. rewrite Ha. by destruct r.
Qed.

Lemma onBeforeClose_unmounted_round_trip_witness :
  let env := Ambient true true (Some 1) in
  let fn := Guard 22 (Value VTrue) in
  let st :=
    run DEFAULT_OPTIONS
      [OpOpen 0 1 ∅; OpAddClosePromise 1 5 (Guard 21 (Value VFalse))] in
  let st1 := (onBeforeClose env 6 fn st).1 in
  let reg := (onBeforeClose env 6 fn st).2 in
  modalsMap st !! 1 = Some 0 ∧
  reg = Hooked 1 6 ∧ unmounted reg st1 = st.
Proof.
  intros env fn st st1 reg.
  destruct (onBeforeClose_unmounted_round_trip env 6 fn st 1 0
              (ModalRecord 0 ∅ true (VStyle 1000) None
                 [(5, [Guard 21 (Value VFalse)])]))
    as (Hreg & _ & _ & Hback);
    [reflexivity|reflexivity|reflexivity|reflexivity|reflexivity|reflexivity|].
  split; [reflexivity|]. split; [exact Hreg|exact Hback].
Defined.

(** X10.  Guards registered through [onBeforeClose], each call minting a
    symbol of its own, are evaluated in the order in which they were
    registered, first registered first, after the guards the modal had
    before. *)
Theorem onBeforeClose_registration_order env st modalId a
    (regs : list (nat * guard)) :
  currentInstance env = true →
  injectedContext env = true →
  injectedModalId env = Some modalId →
  modalsMap st !! modalId = Some a →
  NoDup regs.*1 →
  ∀ r,
    heap st !! a = Some r →
    (∀ fnId, fnId ∈ regs.*1 → cp_get (closePromises r) fnId = None) →
    ∃ r',
      heap (foldl (λ s cg, (onBeforeClose env cg.1 cg.2 s).1) st regs) !! a
        = Some r' ∧
      all_fns (closePromises r') = all_fns (closePromises r) ++ regs.*2.
Proof.
  intros Hinst Hctx Hmid Hid. revert st Hid.
  induction regs as [|[fnId fn] regs IH]; intros st Hid Hnd r Ha Hfresh.
  { exists r. by rewrite app_nil_r. }
  apply NoDup_cons in Hnd as [Hnin Hnd]. simpl.
  destruct (onBeforeClose_unmounted_round_trip env fnId fn st modalId a r)
    as (_ & Ha1 & Hfns & _); try done.
  { apply Hfresh. left. }
  assert (modalsMap (onBeforeClose env fnId fn st).1 !! modalId = Some a)
    as Hid1.
  { unfold onBeforeClose, addClosePromise. rewrite Hinst, Hctx, Hmid. simpl.
    by rewrite Hid. }
  destruct (IH _ Hid1 Hnd _ Ha1) as (r' & Ha' & Hfns').
  { intros c Hc. simpl. rewrite cp_get_snoc_ne.
    - apply Hfresh. by right.
    - intros ->. done. }
  exists r'. split; [exact Ha'|]. rewrite Hfns'. simpl.
  by rewrite Hfns, <- app_assoc.
Qed.

Lemma onBeforeClose_registration_order_witness :
  let env := Ambient true true (Some 1) in
  let g1 := Guard 21 (Value VTrue) in
  let g2 := Guard 22 (Value VTrue) in
  let st := run DEFAULT_OPTIONS [OpOpen 0 1 ∅] in
  NoDup [5; 6] ∧
  ∃ r',
    heap (foldl (λ s cg, (onBeforeClose env cg.1 cg.2 s).1) st
            [(5, g1); (6, g2)]) !! 0 = Some r' ∧
    all_fns (closePromises r') = [] ++ [g1; g2].
Proof.
  intros env g1 g2 st.
  assert (NoDup [5; 6]) as Hnd.
  { repeat constructor; rewrite ?elem_of_cons, ?elem_of_nil; lia. }
  split; [exact Hnd|].
  apply (onBeforeClose_registration_order env st 1 0 [(5, g1); (6, g2)]
           eq_refl eq_refl eq_refl eq_refl Hnd
           (ModalRecord 0 ∅ true (VStyle 1000) None []) eq_refl).
  intros fnId _. reflexivity.
Defined.

(** X11.  [onBeforeClose] outside a component, without a modal context,
    without an enclosing modal, or for a modal that has no record (any
    more) changes nothing, and neither does the unmount that follows; in
    the first three cases it warns, in the last it is silent. *)
Theorem onBeforeClose_without_modal env fnId fn st :
  currentInstance env = false ∨ injectedContext env = false ∨
  match injectedModalId env with
  | Some modalId => modalsMap st !! modalId = None
  | None => True
  end →
  (onBeforeClose env fnId fn st).1 = st ∧
  unmounted (onBeforeClose env fnId fn st).2 st = st ∧
  ((onBeforeClose env fnId fn st).2 =
     (if negb (currentInstance env) then Warned NotInComponent
      else if negb (injectedContext env) then Warned ContextNotFound
      else match injectedModalId env with
           | Some modalId => Hooked modalId fnId
           | None => Warned ModalIdNotFound
           end)).
Proof.
  intros Hcase. unfold onBeforeClose.
  destruct (currentInstance env); simpl; [|done].
  destruct (injectedContext env); simpl; [|done].
  destruct (injectedModalId env) as [m|]; simpl; [|done].
  destruct Hcase as [?|[?|Hm]]; try done.
  unfold addClosePromise, removeComponentPromises. by rewrite Hm.
Qed.

Lemma onBeforeClose_without_modal_witness :
  let env := Ambient true true (Some 3) in
  let fn := Guard 22 (Value VTrue) in
  let st := run DEFAULT_OPTIONS [OpOpen 0 1 ∅] in
  modalsMap st !! 3 = None ∧
  (onBeforeClose env 6 fn st).1 = st ∧
  (onBeforeClose env 6 fn st).2 = Hooked 3 6.
Proof.
  intros env fn st.
  destruct (onBeforeClose_without_modal env 6 fn st) as (H1 & _ & H2).
  { right. right. reflexivity. }
  split; [reflexivity|]. split; [exact H1|exact H2].
Defined.

(** ** The renderer's visibility handler *)



(** ** What a negotiation writes *)

Lemma same_content_refl r : same_content r r.
Proof. by repeat split. Qed.

Lemma keeps_content_alter (l : list modal_record) a f b r :
  (∀ x, same_content x (f x)) →
  l !! b = Some r →
  ∃ r', alter f a l !! b = Some r' ∧ same_content r r'.
Proof.
  intros Hf Hb. destruct (decide (a = b)) as [->|Hne].
  - rewrite list_lookup_alter_eq, Hb. simpl. eauto.
  - rewrite list_lookup_alter_ne by done. exists r.
    split; [done|apply same_content_refl].
Qed.

Lemma keeps_content_next_guard st tid id a fns b r :
  heap st !! b = Some r →
  ∃ r', heap (next_guard st tid id a fns).1 !! b = Some r' ∧
        same_content r r'.
Proof.
  intros Hb. destruct fns as [|fn rest]; simpl.
  - unfold finish. destruct (closing_at st a); simpl;
      (exists r; split; [done|apply same_content_refl]).
  - destruct (awaited (gcall fn)); simpl.
    + exists r. split; [done|apply same_content_refl].
    + apply keeps_content_alter; [|done]. intros x. by repeat split.
Qed.

(** X13.  The negotiation only reads the guard map: [closeModal], and
    every resumption of a parked negotiation, leave the component, the
    props, the style and the guards of every record as they
    were, and allocate nothing; they write [visible] and [isClosing]
    only. *)
Theorem negotiation_keeps_content st id tid b r :
  heap st !! b = Some r →
  (∃ r', heap (closeModal st id).1 !! b = Some r' ∧ same_content r r') ∧
  length (heap (closeModal st id).1) = length (heap st) ∧
  (∀ st' c, resume st tid = Some (st', c) →
     (∃ r', heap st' !! b = Some r' ∧ same_content r r') ∧
     length (heap st') = length (heap st)).
Proof.
  intros Hb. split; [|split].
  - unfold closeModal. destruct (modalsMap st !! id) as [a|];
      [|exists r; split; [done|apply same_content_refl]].
    destruct (heap st !! a) as [x|];
      [|exists r; split; [done|apply same_content_refl]].
    destruct (closing x); [exists r; split; [done|apply same_content_refl]|].
    destruct (keeps_content_alter (heap st) a
                (λ r, set_isClosing true (set_visible false r)) b r)
      as (r1 & Hb1 & (? & ? & ? & ?)); [by repeat split|done|].
    destruct (keeps_content_next_guard
                (update a (λ r, set_isClosing true (set_visible false r)) st)
                (next_tid st) id a (all_fns (closePromises x)) b r1 Hb1)
      as (r2 & Hb2 & (? & ? & ? & ?)).
    exists r2. split; [done|]. repeat split; congruence.
  - destruct (modalsMap st !! id) as [a|] eqn:Hid;
      [by destruct (closeModal_frame st id a Hid)|].
    by rewrite closeModal_absent.
  - intros st' c Hres.
    destruct (tasks st !! tid) as [t|] eqn:Ht;
      [|unfold resume in Hres; by rewrite Ht in Hres].
    split; [|by destruct (resume_frame st tid t st' c Ht Hres)].
    unfold resume in Hres. rewrite Ht in Hres. injection Hres as Hres.
    set (st0 := State (heap st) (modalsMap st) (modalQueue st)
                  (delete tid (tasks st)) (next_tid st) (trace st)) in *.
    assert (heap st0 !! b = Some r) as Hb0 by done.
    assert (st' = (on_error st0 (t_modal t)).1 ∨
            st' = (on_deny st0 (t_modal t)).1 ∨
            st' = (next_guard st0 tid (t_id t) (t_modal t) (t_rest t)).1)
      as [-> | [-> | ->]].
    { destruct (t_await t) as [[]|]; rewrite Hres; auto. }
    + simpl. apply keeps_content_alter; [|done]. intros x. by repeat split.
    + simpl. apply keeps_content_alter; [|done]. intros x. by repeat split.
    + by apply keeps_content_next_guard.
Qed.

Lemma negotiation_keeps_content_witness :
  let r := ModalRecord 0 {["k" := VNum 1]} true (VStyle 1000) None
             [(5, [Guard 7 (Value VFalse)])] in
  let st :=
    run DEFAULT_OPTIONS
      [OpOpen 0 1 {["k" := VNum 1]};
       OpAddClosePromise 1 5 (Guard 7 (Value VFalse))] in
  heap st !! 0 = Some r ∧
  ∃ r', heap (closeModal st 1).1 !! 0 = Some r' ∧ same_content r r'.
Proof.
  intros r st. split; [reflexivity|].
  exact (proj1 (negotiation_keeps_content st 1 0 0 r eq_refl)).
Defined.

(** ** What [closeModal] resolves to *)





(** ** Negotiations exclude each other *)

Lemma closing_at_alter_ne st (h : list modal_record) a f b :
  heap st = h → a ≠ b →
  match alter f a h !! b with Some r => closing r | None => false end =
  closing_at st b.
Proof.
  intros <- Hne. unfold closing_at. by rewrite list_lookup_alter_ne.
Qed.

(** The negotiation stops with its record not closing: the [catch] block
    or a denial. *)
Lemma running_stop st tid id a f :
  running st tid id a → (∀ r, closing (f r) = false) →
  exclusive (update a f st).
Proof.
  intros (R0 & R1 & R2 & R3 & R4 & Hlt & R5 & R6) Hf.
  assert (closing_at (update a f st) a = false) as Hca.
  { rewrite closing_at_update_any, decide_True by done.
    destruct (heap st !! a); auto. }
  assert (∀ b, b ≠ a → closing_at (update a f st) b = closing_at st b) as Hcb.
  { intros b Hb. by rewrite closing_at_update_any, decide_False. }
  unfold exclusive. simpl. rewrite length_alter. split; [|split; [|split]].
  - intros tid' t Ht. destruct (R1 _ _ Ht) as (? & ? & _). done.
  - exact R2.
  - intros tid' t Ht. destruct (R1 _ _ Ht) as (_ & _ & Hne).
    change (alter f a (heap st)) with (heap (update a f st)).
    fold (closing_at (update a f st) (t_modal t)). rewrite Hcb by done.
    apply (R3 _ _ Ht).
  - intros i b Hi Hc.
    change (closing_at (update a f st) b = true) in Hc.
    destruct (decide (b = a)) as [->|Hne]; [congruence|].
    rewrite Hcb in Hc by done. by eapply R4.
Qed.

(** The negotiation reaches the code after the loop. *)
Lemma running_finish st tid id a :
  running st tid id a → exclusive (finish st id a).1.
Proof.
  intros (R0 & R1 & R2 & R3 & R4 & Hlt & R5 & R6). unfold finish.
  destruct (closing_at st a) eqn:Hca; simpl.
  - destruct R5 as [[Hid _]|[? _]]; [|congruence].
    unfold exclusive. simpl. split; [|split; [|split]].
    + intros tid' t Ht. destruct (R1 _ _ Ht) as (? & ? & _). done.
    + exact R2.
    + intros tid' t Ht. destruct (R1 _ _ Ht) as (_ & _ & Hne).
      destruct (R3 _ _ Ht) as [[Hreg Hc]|[Hc Hun]].
      * left. split; [|exact Hc]. rewrite lookup_delete_ne; [done|].
        intros ->. congruence.
      * right. split; [exact Hc|].
        intros i [_ Hi]%lookup_delete_Some. by apply (Hun i).
    + intros i b [Hne Hi]%lookup_delete_Some Hc.
      apply (R4 i b Hi); [|exact Hc]. intros ->. apply Hne. by eapply R6.
  - unfold exclusive. split; [|split; [|split]].
    + intros tid' t Ht. destruct (R1 _ _ Ht) as (? & ? & _). done.
    + exact R2.
    + exact R3.
    + intros i b Hi Hc. apply (R4 i b Hi); [|exact Hc].
      intros ->. congruence.
Qed.

(** The negotiation parks on the next [await]. *)
Lemma running_park st tid id a p rest :
  running st tid id a → exclusive (suspend st tid (Task id a p rest)).1.
Proof.
  intros (R0 & R1 & R2 & R3 & R4 & Hlt & R5 & R6).
  unfold exclusive, suspend. simpl. split; [|split; [|split]].
  - intros tid' t [[<- <-]|[_ Ht]]%lookup_insert_Some; simpl; [lia|].
    destruct (R1 _ _ Ht) as (? & ? & _). lia.
  - intros tid1 tid2 t1 t2 [[<- <-]|[Hn1 Ht1]]%lookup_insert_Some
                           [[<- <-]|[Hn2 Ht2]]%lookup_insert_Some; simpl;
      try done.
    + intros Heq. destruct (R1 _ _ Ht2) as (_ & _ & Hne). congruence.
    + intros Heq. destruct (R1 _ _ Ht1) as (_ & _ & Hne). congruence.
    + by apply R2.
  - intros tid' t [[<- <-]|[_ Ht]]%lookup_insert_Some; simpl; [exact R5|].
    by apply (R3 tid').
  - intros i b Hi Hc. destruct (decide (b = a)) as [->|Hne].
    + exists tid, (Task id a p rest). split; [apply lookup_insert_eq|done].
    + destruct (R4 i b Hi Hne Hc) as (tid' & t & Ht & Hb).
      exists tid', t. split; [|done]. rewrite lookup_insert_ne; [done|].
      intros <-. congruence.
Qed.

Lemma running_next_guard st tid id a fns :
  running st tid id a → exclusive (next_guard st tid id a fns).1.
Proof.
  intros Hrun. destruct fns as [|fn rest]; simpl.
  - by apply (running_finish st tid).
  - destruct (awaited (gcall fn)) as [p|]; simpl.
    + by apply (running_park (emit (Invoked (gname fn)) st)).
    + by apply (running_stop
                  (emit ConsoleError (emit (Invoked (gname fn)) st)) tid id).
Qed.

Lemma exclusive_closeModal st id :
  wf st → exclusive st → exclusive (closeModal st id).1.
Proof.
  intros (Halloc & Hinj & _) Hex. unfold closeModal.
  destruct (modalsMap st !! id) as [a|] eqn:Hid; [|done].
  destruct (heap st !! a) as [r|] eqn:Ha; [|done].
  destruct (closing r) eqn:Hc; [done|].
  apply running_next_guard.
  destruct Hex as (E1 & E2 & E3 & E4).
  assert (closing_at st a = false) as Hca.
  { unfold closing_at. by rewrite Ha. }
  assert (∀ tid t, tasks st !! tid = Some t → t_modal t ≠ a) as Hfree.
  { intros tid t Ht Heq. destruct (E3 _ _ Ht) as [[_ H]|[_ H]].
    - congruence.
    - apply (H id). congruence. }
  set (f := λ r, set_isClosing true (set_visible false r)).
  assert (∀ b, b ≠ a → closing_at (update a f st) b = closing_at st b) as Hcb.
  { intros b Hb. by rewrite closing_at_update_any, decide_False. }
  unfold running. simpl tasks. simpl modalsMap. simpl next_tid.
  split; [|split; [|split; [|split; [|split; [|split; [|split]]]]]].
  - destruct (tasks st !! next_tid st) as [t|] eqn:Ht; [|done].
    destruct (E1 _ _ Ht). lia.
  - intros tid t Ht. destruct (E1 _ _ Ht). simpl. rewrite length_alter.
    split; [done|]. split; [done|]. by eapply Hfree.
  - exact E2.
  - intros tid t Ht. rewrite Hcb by (by eapply Hfree). by apply (E3 tid).
  - intros i b Hi Hb Hcl. rewrite Hcb in Hcl by done. by eapply E4.
  - simpl. rewrite length_alter. by eapply lookup_lt_Some.
  - left. split; [done|]. by rewrite (closing_at_update _ _ _ r).
  - exact Hinj.
Qed.

Lemma exclusive_resume st tid st' c :
  wf st → exclusive st → resume st tid = Some (st', c) → exclusive st'.
Proof.
  intros (Halloc & Hinj & _) (E1 & E2 & E3 & E4). unfold resume.
  destruct (tasks st !! tid) as [t|] eqn:Ht; [|done]. intros [= Hres].
  set (st0 := State (heap st) (modalsMap st) (modalQueue st)
                (delete tid (tasks st)) (next_tid st) (trace st)) in *.
  assert (running st0 tid (t_id t) (t_modal t)) as Hrun.
  { unfold running, st0. simpl.
    split; [apply lookup_delete_eq|].
    split; [|split; [|split; [|split; [|split; [|split]]]]].
    - intros tid' t' [Hne Ht']%lookup_delete_Some.
      destruct (E1 _ _ Ht'). split; [done|]. split; [done|].
      intros Heq. apply Hne. by eapply E2.
    - intros tid1 tid2 t1 t2 [_ H1]%lookup_delete_Some
                             [_ H2]%lookup_delete_Some. by eapply E2.
    - intros tid' t' [_ Ht']%lookup_delete_Some. by apply (E3 tid').
    - intros i b Hi Hb Hc. destruct (E4 i b Hi Hc) as (tid' & t' & Ht' & Hb').
      exists tid', t'. split; [|done]. rewrite lookup_delete_ne; [done|].
      intros <-. congruence.
    - by destruct (E1 _ _ Ht).
    - by apply (E3 tid).
    - exact Hinj. }
  assert (st' = (on_error st0 (t_modal t)).1 ∨
          st' = (on_deny st0 (t_modal t)).1 ∨
          st' = (next_guard st0 tid (t_id t) (t_modal t) (t_rest t)).1)
    as [-> | [-> | ->]].
  { destruct (t_await t) as [[]|]; rewrite Hres; auto. }
  - by apply (running_stop (emit ConsoleError st0) tid (t_id t)).
  - by apply (running_stop st0 tid (t_id t)).
  - by apply running_next_guard.
Qed.

(** States that differ in props and guards only. *)
Lemma exclusive_hooks st a f :
  (∀ r, closing (f r) = closing r) → exclusive st → exclusive (update a f st).
Proof.
  intros Hf (E1 & E2 & E3 & E4).
  assert (∀ b, closing_at (update a f st) b = closing_at st b) as Hc.
  { intros b. rewrite closing_at_update_any. case_decide; [subst b|done].
    unfold closing_at. destruct (heap st !! a); by rewrite ?Hf. }
  unfold exclusive. simpl tasks. simpl modalsMap. simpl next_tid.
  split; [|split; [|split]].
  - intros tid t Ht. simpl. rewrite length_alter. by apply (E1 tid).
  - exact E2.
  - intros tid t Ht. rewrite Hc. by apply (E3 tid).
  - intros i b Hi Hcl. rewrite Hc in Hcl. by eapply E4.
Qed.

Lemma exclusive_create options c id st p :
  wf st → exclusive st → modalsMap st !! id = None →
  exclusive (create options c id st p).
Proof.
  intros (Halloc & _ & _) (E1 & E2 & E3 & E4) Hid.
  assert (∀ b, b < length (heap st) →
            closing_at (create options c id st p) b = closing_at st b) as Hc.
  { intros b Hb. unfold closing_at, create. simpl.
    by rewrite lookup_app_l. }
  unfold exclusive. simpl tasks. simpl modalsMap. simpl next_tid.
  split; [|split; [|split]].
  - intros tid t Ht. destruct (E1 _ _ Ht). simpl. rewrite length_app.
    simpl. lia.
  - exact E2.
  - intros tid t Ht. destruct (E1 _ _ Ht) as [_ Hlt]. rewrite Hc by done.
    destruct (E3 _ _ Ht) as [[Hreg Hcl]|[Hcl Hun]].
    + left. split; [|done]. rewrite lookup_insert_ne; [done|].
      intros ->. congruence.
    + right. split; [done|].
      intros i [[_ ?]|[_ Hi]]%lookup_insert_Some; [lia|]. by apply (Hun i).
  - intros i b [[<- <-]|[_ Hi]]%lookup_insert_Some Hcl.
    + unfold closing_at, create in Hcl. simpl in Hcl.
      by rewrite list_lookup_middle in Hcl.
    + rewrite Hc in Hcl by (by eapply Halloc). by eapply E4.
Qed.

(** The reopen path of [open]: the old record stops closing and leaves the
    registry. *)
Lemma exclusive_retire st id a :
  wf st → exclusive st → modalsMap st !! id = Some a →
  exclusive
    (State (alter (set_isClosing false) a (heap st)) (delete id (modalsMap st))
       (modalQueue st) (tasks st) (next_tid st) (trace st)).
Proof.
  intros (Halloc & Hinj & _) (E1 & E2 & E3 & E4) Hid.
  set (st' := State _ _ _ _ _ _).
  assert (closing_at st' a = false) as Hca.
  { unfold closing_at, st'. simpl. rewrite list_lookup_alter_eq.
    by destruct (heap st !! a). }
  assert (∀ b, b ≠ a → closing_at st' b = closing_at st b) as Hcb.
  { intros b Hb. unfold closing_at, st'. simpl.
    by rewrite list_lookup_alter_ne. }
  assert (∀ i, modalsMap st' !! i ≠ Some a) as Hun.
  { intros i Hi. unfold st' in Hi. simpl in Hi.
    apply lookup_delete_Some in Hi as [Hne Hi]. apply Hne. by eapply Hinj. }
  unfold exclusive. split; [|split; [|split]].
  - intros tid t Ht. simpl. rewrite length_alter. by apply (E1 tid).
  - exact E2.
  - intros tid t Ht. destruct (decide (t_modal t = a)) as [Heq|Hne].
    + right. rewrite Heq. done.
    + rewrite Hcb by done. destruct (E3 _ _ Ht) as [[Hreg Hcl]|[Hcl Hun']].
      * left. split; [|done]. simpl. rewrite lookup_delete_ne; [done|].
        intros ->. congruence.
      * right. split; [done|]. simpl.
        intros i [_ Hi]%lookup_delete_Some. by apply (Hun' i).
  - intros i b Hi Hcl. destruct (decide (b = a)) as [->|Hne];
      [by apply Hun in Hi|].
    rewrite Hcb in Hcl by done. simpl in Hi.
    apply lookup_delete_Some in Hi as [_ Hi]. by eapply E4.
Qed.

Lemma exclusive_open options c id st p :
  wf st → exclusive st → exclusive (open options c id st p).
Proof.
  intros Hwf Hex.
  assert (wf (evict options st) ∧ exclusive (evict options st))
    as [Hwf1 Hex1].
  { split; [by apply wf_evict|]. unfold evict. destruct (_ && _); [|done].
    destruct (last _); [|done]. destruct (modalsMap st !! _); [|done].
    by apply exclusive_closeModal. }
  unfold open.
  destruct (modalsMap _ !! id) as [a|] eqn:Hid;
    [|by apply exclusive_create].
  set (st2 := update a (assign_props p) (evict options st)).
  assert (wf st2) as Hwf2 by (by apply wf_update).
  assert (exclusive st2) as Hex2 by (by apply exclusive_hooks).
  destruct (negb _); [done|].
  apply exclusive_create.
  - apply (wf_unregister id (update a (set_isClosing false) st2)).
    by apply wf_update.
  - by apply (exclusive_retire st2 id a).
  - simpl. apply lookup_delete_eq.
Qed.

Lemma exclusive_step options st o :
  wf st → exclusive st → exclusive (step options st o).
Proof.
  intros Hwf Hex. destruct o as [c id p|id|id|m cid fn|m cid|tid]; simpl.
  - by apply exclusive_open.
  - unfold close. destruct (modalsMap st !! id); [|done].
    by apply exclusive_closeModal.
  - by apply exclusive_closeModal.
  - unfold addClosePromise. destruct (modalsMap st !! m); [|done].
    by apply exclusive_hooks.
  - unfold removeComponentPromises. destruct (modalsMap st !! m); [|done].
    by apply exclusive_hooks.
  - destruct (resume st tid) as [[st' c]|] eqn:Hres; [|done].
    by eapply exclusive_resume.
Qed.

Lemma exclusive_run options ops : exclusive (run options ops).
Proof.
  unfold run. induction ops as [|o ops IH] using rev_ind.
  - by split; [|split; [|split]]; intros ??.
  - rewrite foldl_app. simpl. apply exclusive_step; [|done].
    apply (reachable_wf options). by exists ops.
Qed.

(** X16.  In every reachable state no two parked negotiations hold the
    same record object, and the record registered for an identity is
    closing exactly when a negotiation for that identity is parked on it:
    [isClosing] is the lock of the negotiation, never left set without a
    negotiation and never clear under one. *)
Theorem negotiations_exclude_each_other options st :
  reachable options st →
  (∀ tid1 tid2 t1 t2,
     tasks st !! tid1 = Some t1 → tasks st !! tid2 = Some t2 →
     t_modal t1 = t_modal t2 → tid1 = tid2) ∧
  (∀ id a, modalsMap st !! id = Some a →
     (closing_at st a = true ↔
      ∃ tid t, tasks st !! tid = Some t ∧ t_id t = id ∧ t_modal t = a)).
Proof.
  intros Hreach. pose proof (reachable_wf _ _ Hreach) as (_ & Hinj & _).
  destruct Hreach as [ops ->].
  destruct (exclusive_run options ops) as (_ & E2 & E3 & E4).
  split; [exact E2|]. intros id a Hid. split.
  - intros Hc. destruct (E4 id a Hid Hc) as (tid & t & Ht & Ha).
    exists tid, t. split; [done|]. split; [|done].
    destruct (E3 _ _ Ht) as [[Hreg _]|[Hn _]]; [|congruence].
    rewrite Ha in Hreg. by eapply Hinj.
  - intros (tid & t & Ht & _ & Ha).
    destruct (E3 _ _ Ht) as [[_ Hc]|[_ Hun]]; [congruence|].
    exfalso. apply (Hun id). congruence.
Qed.

Lemma negotiations_exclude_each_other_witness :
  let g := Guard 8 (Value VTrue) in
  let st :=
    run DEFAULT_OPTIONS
      [OpOpen 0 1 ∅; OpAddClosePromise 1 5 g; OpCloseModal 1;
       OpOpen 0 1 ∅; OpAddClosePromise 1 5 g; OpCloseModal 1] in
  t_modal <$> tasks st !! 0 = Some 0 ∧
  t_modal <$> tasks st !! 1 = Some 1 ∧
  modalsMap st !! 1 = Some 1 ∧
  closing_at st 0 = false ∧
  closing_at st 1 = true ∧
  (∀ tid1 tid2 t1 t2,
     tasks st !! tid1 = Some t1 → tasks st !! tid2 = Some t2 →
     t_modal t1 = t_modal t2 → tid1 = tid2) ∧
  (∀ id a, modalsMap st !! id = Some a →
     (closing_at st a = true ↔
      ∃ tid t, tasks st !! tid = Some t ∧ t_id t = id ∧ t_modal t = a)).
Proof.
  intros g st. do 5 (split; [reflexivity|]).
  apply (negotiations_exclude_each_other DEFAULT_OPTIONS st). by eexists.
Defined.

(** ** The options of the context *)

(** The part of [open] after the eviction starts no negotiation and calls
    no guard. *)
Lemma open_after_evict options c id st p :
  let st' := open options c id st p in
  tasks st' = tasks (evict options st) ∧
  next_tid st' = next_tid (evict options st) ∧
  trace st' = trace (evict options st).
Proof.
  unfold open. destruct (modalsMap _ !! id); [|done].
  by destruct (negb _).
Qed.

Lemma evict_last options st q lastModalId a :
  allowMultiple options = false →
  modalQueue st = q ++ [lastModalId] →
  modalsMap st !! lastModalId = Some a →
  evict options st = (closeModal st lastModalId).1.
Proof.
  intros Hm Hq Hid. unfold evict.
  rewrite Hm, Hq, last_snoc, length_app. simpl.
  rewrite bool_decide_eq_true_2 by lia. simpl. by rewrite Hid.
Qed.

(** With [allowMultiple] truthy, [open] leaves the other modals alone. *)
Lemma open_stacks options c id st p :
  allowMultiple options = true →
  wf st →
  let st' := open options c id st p in
  tasks st' = tasks st ∧ next_tid st' = next_tid st ∧
  trace st' = trace st ∧
  (∀ j b, j ≠ id → modalsMap st !! j = Some b →
          modalsMap st' !! j = Some b ∧ heap st' !! b = heap st !! b).
Proof.
  intros Hmulti (Halloc & Hinj & _) st'.
  assert (evict options st = st) as Hev.
  { unfold evict. by rewrite Hmulti. }
  unfold st', open. rewrite Hev.
  destruct (modalsMap st !! id) as [a|] eqn:Hid.
  - destruct (negb _); simpl.
    + split; [done|]. split; [done|]. split; [done|].
      intros j b Hj Hb. split; [done|].
      apply list_lookup_alter_ne. intros ->. apply Hj. by eapply Hinj.
    + split; [done|]. split; [done|]. split; [done|].
      intros j b Hj Hb.
      split; [by rewrite lookup_insert_ne, lookup_delete_ne|].
      rewrite lookup_app_l
        by (rewrite !length_alter; by eapply Halloc).
      rewrite !list_lookup_alter_ne; [done|..];
        intros ->; apply Hj; by eapply Hinj.
  - simpl. split; [done|]. split; [done|]. split; [done|].
    intros j b Hj Hb. split; [by rewrite lookup_insert_ne|].
    rewrite lookup_app_l; [done|]. by eapply Halloc.
Qed.

(** X17.  [createModalContext] merges the caller's options over the
    defaults with an object spread, so a field that is left out takes its
    default (base z-index 1000, [allowMultiple] true) while a field that
    is present wins, also when it holds [undefined].  The context stacks
    modals exactly when [allowMultiple] is left out or [true]: [open]
    then starts no negotiation, calls no guard and leaves the record of
    every other identity as it is.  With [allowMultiple] [false], and
    also with [allowMultiple] present and [undefined], the context is
    single-modal: [open] starts [closeModal] on the last identity of the
    queue when it is registered.  (The statement is for a [baseZIndex]
    that is a number.) *)
Theorem merged_options_mode input options :
  effective (mergedOptions input) = Some options →
  in_baseZIndex input ≠ Undefined ∧
  baseZIndex options =
    match in_baseZIndex input with Given z => z | _ => 1000%Z end ∧
  allowMultiple options =
    match in_allowMultiple input with
    | Absent => true
    | Undefined => false
    | Given b => b
    end ∧
  (allowMultiple options = true →
   ∀ c id st p,
     reachable options st →
     let st' := open options c id st p in
     tasks st' = tasks st ∧ next_tid st' = next_tid st ∧
     trace st' = trace st ∧
     (∀ j b, j ≠ id → modalsMap st !! j = Some b →
             modalsMap st' !! j = Some b ∧ heap st' !! b = heap st !! b)) ∧
  (allowMultiple options = false →
   ∀ c id st p q lastModalId a,
     modalQueue st = q ++ [lastModalId] →
     modalsMap st !! lastModalId = Some a →
     let st' := open options c id st p in
     tasks st' = tasks (closeModal st lastModalId).1 ∧
     trace st' = trace (closeModal st lastModalId).1).
Proof.
  intros Heff.
  assert (in_baseZIndex input ≠ Undefined ∧
          baseZIndex options =
            match in_baseZIndex input with Given z => z | _ => 1000%Z end ∧
          allowMultiple options =
            match in_allowMultiple input with
            | Absent => true
            | Undefined => false
            | Given b => b
            end) as (Hz & Hbase & Hmode).
  { unfold effective, mergedOptions in Heff. simpl in Heff.
    destruct (in_baseZIndex input); simpl in Heff; [|done|];
      injection Heff as <-; (split; [done|]); (split; [done|]);
      by destruct (in_allowMultiple input). }
  split; [done|]. split; [done|]. split; [done|]. split.
  - intros Hmulti c id st p Hwf%reachable_wf. by apply open_stacks.
  - intros Hsingle c id st p q lastModalId a Hq Hlast st'.
    destruct (open_after_evict options c id st p) as (Ht & _ & Htr).
    unfold st'. rewrite Ht, Htr.
    by rewrite (evict_last options st q lastModalId a).
Qed.

Lemma merged_options_mode_witness :
  let input := OptionsInput (Given 50%Z) Undefined Absent in
  let options := Options 50 false false in
  let st :=
    run options [OpOpen 0 1 ∅; OpAddClosePromise 1 5 (Guard 9 (Value VTrue))] in
  let st' := open options 0 2 st ∅ in
  effective (mergedOptions input) = Some options ∧
  effective (mergedOptions (OptionsInput Absent Absent Absent)) =
    Some DEFAULT_OPTIONS ∧
  effective (mergedOptions (OptionsInput Undefined Absent Absent)) = None ∧
  modalQueue st = [] ++ [1] ∧
  closing_of st' 1 = true ∧
  tasks st' = tasks (closeModal st 1).1 ∧
  trace st' = [Invoked 9].
Proof.
  intros input options st st'.
  destruct (merged_options_mode input options eq_refl)
    as (_ & _ & _ & _ & Hsingle).
  destruct (Hsingle eq_refl 0 2 st ∅ [] 1 0 eq_refl eq_refl) as [Ht Htr].
  split; [reflexivity|]. split; [reflexivity|]. split; [reflexivity|].
  split; [reflexivity|]. split; [reflexivity|]. split; [exact Ht|exact Htr].
Defined.

(** ** Eviction with [allowMultiple = false] *)

(** A parked negotiation resumed to its end, as the loop over its
    remaining guards headed by the promise it is parked on. *)
Lemma settle_parked st tid id a p rest :
  tasks st !! tid = Some (Task id a p rest) →
  let fns := Guard 0 (Promise p) :: rest in
  ∃ st',
    settle st tid =
      (st', Some (match (evaluate fns).2 with
                  | Allowed => closing_at st a
                  | _ => false
                  end)) ∧
    trace st' = trace st ++ invocations (tail (evaluate fns).1) ++
                  (match (evaluate fns).2 with
                   | Errored => [ConsoleError]
                   | _ => []
                   end) ∧
    match (evaluate fns).2 with
    | Allowed =>
        heap st' = heap st ∧
        (if closing_at st a
         then modalsMap st' = delete id (modalsMap st) ∧
              modalQueue st' = remove_first id (modalQueue st)
         else modalsMap st' = modalsMap st ∧ modalQueue st' = modalQueue st)
    | Denied =>
        heap st' =
          alter (λ r, set_visible true (set_isClosing false r)) a (heap st) ∧
        modalsMap st' = modalsMap st ∧ modalQueue st' = modalQueue st
    | Errored =>
        heap st' = alter (set_isClosing false) a (heap st) ∧
        modalsMap st' = modalsMap st ∧ modalQueue st' = modalQueue st
    end.
Proof.
  intros Ht fns. unfold settle, turns_left. rewrite Ht. simpl drive.
  unfold resume. rewrite Ht. simpl t_await. simpl t_modal. simpl t_id.
  simpl t_rest.
  set (st0 := State (heap st) (modalsMap st) (modalQueue st)
                (delete tid (tasks st)) (next_tid st) (trace st)).
  unfold fns. simpl evaluate.
  destruct p as [v|].
  2: { simpl. eexists. split; [reflexivity|]. simpl. auto. }
  assert (v = VFalse ∨ v ≠ VFalse) as [->|Hv] by (destruct v; auto).
  { simpl. eexists. split; [reflexivity|]. simpl.
    rewrite app_nil_r. auto. }
  destruct (loop_from_spec rest st0 tid id a (length rest))
    as (st' & Hrun & Htr & Hst); [done|].
  unfold loop_from in Hrun.
  change (closing_at st0 a) with (closing_at st a) in *.
  exists st'. destruct (evaluate rest) as [called w] eqn:Hev.
  simpl in Hrun, Htr, Hst.
  by destruct v.
Qed.

Lemma evaluate_awaited fn rest p :
  awaited (gcall fn) = Some p →
  (evaluate (fn :: rest)).2 = (evaluate (Guard 0 (Promise p) :: rest)).2 ∧
  (evaluate (fn :: rest)).1 =
    fn :: tail (evaluate (Guard 0 (Promise p) :: rest)).1.
Proof.
  intros Hp. simpl. destruct (evaluate rest) as [called w].
  destruct (gcall fn) as [[]|[[]|]|]; simplify_eq/=; done.
Qed.

Lemma create_spec options c id E p :
  let s := create options c id E p in
  modalsMap s !! id = Some (length (heap E)) ∧
  (∃ x, heap s !! length (heap E) = Some x ∧ visible x = true) ∧
  modalQueue s = modalQueue E ++ [id] ∧
  trace s = trace E ∧ tasks s = tasks E ∧
  (∀ j, j ≠ id → modalsMap s !! j = modalsMap E !! j) ∧
  (∀ b x, heap E !! b = Some x → heap s !! b = Some x).
Proof.
  unfold create. simpl. split; [apply lookup_insert_eq|].
  split; [eexists; split; [by apply list_lookup_middle|done]|].
  split; [done|]. split; [done|]. split; [done|].
  split; [intros j Hj; by rewrite lookup_insert_ne|].
  intros b x Hb. by apply lookup_app_l_Some.
Qed.

(** X18.  With [allowMultiple = false], let [A] be the last identity of
    the queue, registered and not closing, and let [B] be an identity
    without a record.  [open] for [B] starts the close negotiation of [A]
    and creates [B], visible and last in the queue, before the result of
    the negotiation is known.  The negotiation, resumed to its end, calls
    the guards of [A] as a close of [A] would.  When they all let the
    close go on, [A] leaves the registry and [B] stays; when one denies,
    [A] and [B] are both registered and visible; when one throws or
    rejects, [A] stays registered and hidden.  The other identities keep
    their entry in the registry. *)
Theorem eviction_runs_the_negotiation options cB A B st pB q a r :
  allowMultiple options = false →
  reachable options st →
  modalQueue st = q ++ [A] →
  modalsMap st !! A = Some a →
  heap st !! a = Some r →
  closing r = false →
  modalsMap st !! B = None →
  let fns := all_fns (closePromises r) in
  let st1 := open options cB B st pB in
  let st2 := (settle st1 (next_tid st)).1 in
  (isVisible B st1 = true ∧ last (modalQueue st1) = Some B ∧
   calls (trace st1) = calls (trace st) ++ (gname <$> take 1 fns)) ∧
  calls (trace st2) = calls (trace st) ++ (gname <$> (evaluate fns).1) ∧
  modalsMap st2 !! B = Some (length (heap st)) ∧
  isVisible B st2 = true ∧
  (∀ j, j ≠ A → j ≠ B → modalsMap st2 !! j = modalsMap st !! j) ∧
  match (evaluate fns).2 with
  | Allowed =>
      modalsMap st2 !! A = None ∧ (A ∉ q → modalQueue st2 = q ++ [B])
  | Denied =>
      modalsMap st2 !! A = Some a ∧ isVisible A st2 = true ∧
      closing_of st2 A = false ∧ modalQueue st2 = q ++ [A; B]
  | Errored =>
      modalsMap st2 !! A = Some a ∧ isVisible A st2 = false ∧
      closing_of st2 A = false ∧ modalQueue st2 = q ++ [A; B]
  end.
Proof.
  intros Hm Hreach Hq HA Ha Hc HB fns st1 st2.
  assert (A ≠ B) as HAB by (intros ->; congruence).
  assert (tasks st !! next_tid st = None) as Hfresh.
  { destruct Hreach as [ops ->].
    destruct (exclusive_run options ops) as (E1 & _).
    destruct (tasks _ !! _) as [t|] eqn:Ht; [|done].
    destruct (E1 _ _ Ht). lia. }
  assert (a < length (heap st)) as Hlt by (by eapply lookup_lt_Some).
  set (tid := next_tid st) in *.
  set (stA := update a (λ r, set_isClosing true (set_visible false r)) st).
  assert (heap stA !! a = Some (set_isClosing true (set_visible false r)))
    as HaA.
  { unfold stA. rewrite lookup_update, decide_True by done. by rewrite Ha. }
  assert (closing_at stA a = true) as HcA.
  { unfold closing_at. by rewrite HaA. }
  assert (evict options st = (next_guard stA tid A a fns).1) as Hev.
  { rewrite (evict_last options st q A a) by done.
    unfold closeModal. by rewrite HA, Ha, Hc. }
  assert (length (heap stA) = length (heap st)) as HlA
    by apply length_alter.
  (* what [open] leaves, in terms of the state [E] after the eviction *)
  assert (∀ E, evict options st = E →
               modalsMap E !! B = None →
               length (heap E) = length (heap st) →
               modalsMap st1 !! B = Some (length (heap st)) ∧
               (∃ x, heap st1 !! length (heap st) = Some x ∧
                     visible x = true) ∧
               modalQueue st1 = modalQueue E ++ [B] ∧
               trace st1 = trace E ∧ tasks st1 = tasks E ∧
               (∀ j, j ≠ B → modalsMap st1 !! j = modalsMap E !! j) ∧
               (∀ b x, heap E !! b = Some x → heap st1 !! b = Some x))
    as Hst1.
  { intros E HevE HE Hlen. unfold st1, open. rewrite HevE, HE, <- Hlen.
    apply create_spec. }
  assert (∀ (s : state) i b x,
            modalsMap s !! i = Some b → heap s !! b = Some x →
            isVisible i s = visible x ∧ closing_of s i = closing x) as Hread.
  { intros s i b x Hs Hx. unfold isVisible, closing_of, closing_at.
    by rewrite Hs, Hx. }
  assert (∀ l : list nat, (q ++ [A]) ++ l = q ++ A :: l) as Hassoc.
  { intros l. by rewrite <- app_assoc. }
  destruct fns as [|fn rest] eqn:Hfns.
  - (* no guard: the close ends inside [open] *)
    simpl in Hev. unfold finish in Hev. rewrite HcA in Hev. simpl in Hev.
    destruct (Hst1 _ Hev) as (HB1 & (x & Hx & Hvx) & Hq1 & Htr1 & Ht1 &
                             Hreg1 & Hheap1);
      [simpl; by rewrite lookup_delete_ne|simpl; apply length_alter|].
    simpl in Hq1, Htr1, Ht1, Hreg1.
    assert (st2 = st1) as ->.
    { unfold st2, settle, turns_left. by rewrite Ht1, Hfresh. }
    destruct (Hread st1 B _ x HB1 Hx) as [HvB _].
    assert (calls (trace st1) = calls (trace st) ++ []) as Hcalls
      by (by rewrite Htr1, app_nil_r).
    split.
    { split; [by rewrite HvB|]. split; [by rewrite Hq1, last_snoc|done]. }
    split; [done|]. split; [done|]. split; [by rewrite HvB|]. split.
    { intros j HjA HjB. by rewrite Hreg1, lookup_delete_ne. }
    split; [by rewrite Hreg1, lookup_delete_eq|].
    intros Hnin. rewrite Hq1, Hq.
    replace (q ++ [A]) with (q ++ A :: []) by done.
    by rewrite remove_first_split, app_nil_r.
  - simpl in Hev.
    destruct (awaited (gcall fn)) as [p|] eqn:Hp.
    + (* the negotiation is parked on the first guard *)
      simpl in Hev.
      destruct (Hst1 _ Hev) as (HB1 & (x & Hx & Hvx) & Hq1 & Htr1 & Ht1 &
                               Hreg1 & Hheap1); [done|done|].
      simpl in Hq1, Htr1, Ht1, Hreg1.
      assert (tasks st1 !! tid = Some (Task A a p rest)) as Htask
        by (rewrite Ht1; apply lookup_insert_eq).
      assert (heap st1 !! a = Some (set_isClosing true (set_visible false r)))
        as Ha1 by (by apply Hheap1).
      assert (closing_at st1 a = true) as Hc1.
      { unfold closing_at. by rewrite Ha1. }
      assert (modalsMap st1 !! A = Some a) as HA1 by (by rewrite Hreg1).
      destruct (Hread st1 B _ x HB1 Hx) as [HvB _].
      destruct (settle_parked st1 tid A a p rest Htask)
        as (st' & Hrun & Htr & Hst).
      destruct (evaluate_awaited fn rest p Hp) as [Hv Hcalled].
      rewrite Hv, Hcalled. rewrite Hc1 in Hrun, Hst.
      assert (st2 = st') as -> by (unfold st2; by rewrite Hrun).
      assert (calls (trace st') =
                calls (trace st) ++
                  (gname <$>
                     fn :: tail (evaluate (Guard 0 (Promise p) :: rest)).1))
        as Hcalls.
      { rewrite Htr, Htr1, !calls_app, calls_invocations, calls_report.
        simpl. by rewrite app_nil_r, <- app_assoc. }
      split.
      { split; [by rewrite HvB|].
        split; [by rewrite Hq1, last_snoc|].
        rewrite Htr1, calls_app. simpl. by destruct rest. }
      split; [done|].
      assert (length (heap st) ≠ a) as Hne by lia.
      destruct (evaluate (Guard 0 (Promise p) :: rest)).2.
      * destruct Hst as (Hh & Hreg & Hqueue).
        assert (heap st' !! length (heap st) = Some x) as Hx'
          by (by rewrite Hh).
        split; [by rewrite Hreg, lookup_delete_ne|].
        split.
        { unfold isVisible. rewrite Hreg, lookup_delete_ne, HB1 by done.
          by rewrite Hx'. }
        split.
        { intros j HjA HjB. by rewrite Hreg, lookup_delete_ne, Hreg1. }
        split; [by rewrite Hreg, lookup_delete_eq|].
        intros Hnin. rewrite Hqueue, Hq1, Hq, Hassoc.
        by apply remove_first_split.
      * destruct Hst as (Hh & Hreg & Hqueue).
        assert (heap st' !! length (heap st) = Some x) as Hx'
          by (by rewrite Hh, list_lookup_alter_ne).
        split; [by rewrite Hreg|].
        split; [unfold isVisible; by rewrite Hreg, HB1, Hx'|].
        split; [intros j HjA HjB; by rewrite Hreg, Hreg1|].
        assert (modalsMap st' !! A = Some a) as HA' by (by rewrite Hreg).
        destruct (Hread st' A a _ HA'
                    ltac:(rewrite Hh, list_lookup_alter_eq, Ha1; done))
          as [-> ->].
        split; [done|]. split; [done|]. split; [done|].
        by rewrite Hqueue, Hq1, Hq, Hassoc.
      * destruct Hst as (Hh & Hreg & Hqueue).
        assert (heap st' !! length (heap st) = Some x) as Hx'
          by (by rewrite Hh, list_lookup_alter_ne).
        split; [by rewrite Hreg|].
        split; [unfold isVisible; by rewrite Hreg, HB1, Hx'|].
        split; [intros j HjA HjB; by rewrite Hreg, Hreg1|].
        assert (modalsMap st' !! A = Some a) as HA' by (by rewrite Hreg).
        destruct (Hread st' A a _ HA'
                    ltac:(rewrite Hh, list_lookup_alter_eq, Ha1; done))
          as [-> ->].
        split; [done|]. split; [done|]. split; [done|].
        by rewrite Hqueue, Hq1, Hq, Hassoc.
    + (* the first guard throws: the [catch] block runs inside [open] *)
      simpl in Hev.
      destruct (Hst1 _ Hev) as (HB1 & (x & Hx & Hvx) & Hq1 & Htr1 & Ht1 &
                               Hreg1 & Hheap1);
        [done|simpl; by rewrite length_alter|].
      simpl in Hq1, Htr1, Ht1, Hreg1.
      assert (st2 = st1) as ->.
      { unfold st2, settle, turns_left. by rewrite Ht1, Hfresh. }
      destruct (Hread st1 B _ x HB1 Hx) as [HvB _].
      assert (gcall fn = Throw) as Hthrow
        by (by destruct (gcall fn) as [|[]|]).
      simpl evaluate. rewrite Hthrow. simpl.
      assert (calls (trace st1) = calls (trace st) ++ [gname fn]) as Hcalls.
      { rewrite Htr1, !calls_app. simpl. by rewrite app_nil_r. }
      split.
      { split; [by rewrite HvB|]. split; [by rewrite Hq1, last_snoc|done]. }
      split; [done|]. split; [done|]. split; [by rewrite HvB|].
      split; [intros j HjA HjB; by rewrite Hreg1|].
      assert (modalsMap st1 !! A = Some a) as HA1 by (by rewrite Hreg1).
      destruct (Hread st1 A a
                  (set_isClosing false
                     (set_isClosing true (set_visible false r))) HA1)
        as [-> ->].
      { apply Hheap1. simpl. by rewrite !list_lookup_alter_eq, Ha. }
      split; [done|]. split; [done|]. split; [done|].
      by rewrite Hq1, Hq, Hassoc.
Qed.

Lemma eviction_runs_the_negotiation_witness :
  let options := Options 1000 false false in
  let st :=
    run options
      [OpOpen 0 1 ∅; OpAddClosePromise 1 5 (Guard 7 (Promise (Fulfilled VTrue)));
       OpAddClosePromise 1 6 (Guard 8 (Value VUndefined))] in
  let st1 := open options 0 2 st ∅ in
  let st2 := (settle st1 (next_tid st)).1 in
  modalQueue st = [] ++ [1] ∧
  calls (trace st1) = [7] ∧ isVisible 2 st1 = true ∧
  closing_of st1 1 = true ∧
  calls (trace st2) = [7; 8] ∧
  modalsMap st2 !! 1 = None ∧ isVisible 2 st2 = true ∧
  modalQueue st2 = [2].
Proof.
  intros options st st1 st2.
  destruct (eviction_runs_the_negotiation options 0 1 2 st ∅ [] 0
              (ModalRecord 0 ∅ true (VStyle 1000) None
                 [(5, [Guard 7 (Promise (Fulfilled VTrue))]);
                  (6, [Guard 8 (Value VUndefined)])]))
    as ((HvB1 & _ & Hc1) & Hc2 & _ & HvB2 & _ & HA & Hq);
    [reflexivity|by eexists|reflexivity|reflexivity|reflexivity|reflexivity
    |reflexivity|].
  split; [reflexivity|]. split; [exact Hc1|]. split; [exact HvB1|].
  split; [reflexivity|]. split; [exact Hc2|]. split; [exact HA|].
  split; [exact HvB2|]. apply Hq. by intros ?%elem_of_nil.
Defined.
